(** * Mobile RPG Engine core (src/js/core.js): EventBus, Character,
      CombatSystem and the RPGEngine entity registry.

    JavaScript numbers are modelled as exact rationals ([Q]): NaN, the
    infinities and rounding error are outside the model.  A plain object used
    as a dictionary ([EventBus.events]) and a [Map] are finite maps; names
    inherited from [Object.prototype] are outside the model. *)

From Stdlib Require Import QArith Qround Qminmax Lqa.
From stdpp Require Import gmap strings list fin_maps.

Local Open Scope list_scope.

(* ===================================================================== *)
(** * EventBus (core.js, lines 615-667)                                   *)
(* ===================================================================== *)

Module EventBus.

(** A thrown JavaScript value; only its message is kept. *)
Definition exn : Type := string.

(** Function objects that can sit in a listener array.  Two are the same
    object ([===]) exactly when they are equal here.
    - [Fn f]: function number [f] of the application;
    - [Wrapped n eventName f]: the [n]-th [wrappedCallback] closure created
      by [once], closing over [eventName] and the application function [f]. *)
Inductive callback : Type :=
| Fn (f : nat)
| Wrapped (n : nat) (eventName : string) (f : nat).

#[global] Instance callback_eq_dec : EqDecision callback.
Proof. solve_decision. Defined.

Section Model.
(** [data]: what is passed to listeners; [vars]: the variables the
    application's listeners close over. *)
Context {data vars : Type}.

(** What the body of an application function does, as far as the bus is
    concerned: calls of the bus's methods, reads and writes of its own
    variables, then a normal return or a throw. *)
Inductive script : Type :=
| Return
| Throw (x : exn)
| CallOn (eventName : string) (f : nat) (k : script)
| CallOnce (eventName : string) (f : nat) (k : script)
| CallOff (eventName : string) (f : nat) (k : script)
| CallEmit (eventName : string) (d : data) (k : script)
| CallClear (eventName : option string) (k : script)
| GetVars (k : vars → script)
| SetVars (v : vars) (k : script).

(** The body of application function [f] when called with [d]. *)
Variable behaviour : nat → data → script.

(** The bus object together with the array objects it refers to.
    [events] holds references: [on] pushes onto the array in place, [off]
    rebinds the name to a new array. *)
Record bus : Type := Bus {
  events : gmap string nat;
  arrays : list (list callback);
  wrappers : nat;
  console : list (string * exn);
  closure_vars : vars
}.

(** How a call ends.  [Diverged]: the nesting of [emit] calls went deeper
    than the fuel given. *)
Inductive completion (A : Type) : Type :=
| Normal (a : A)
| Thrown (x : exn)
| Diverged.
#[global] Arguments Normal {A} a.
#[global] Arguments Thrown {A} x.
#[global] Arguments Diverged {A}.

Definition M (A : Type) : Type := bus → completion A * bus.

Definition ret {A} (a : A) : M A := λ s, (Normal a, s).
Definition throw {A} (x : exn) : M A := λ s, (Thrown x, s).
Definition diverge {A} : M A := λ s, (Diverged, s).
Definition bind {A B} (m : M A) (k : A → M B) : M B :=
  λ s, match m s with
       | (Normal a, s') => k a s'
       | (Thrown x, s') => (Thrown x, s')
       | (Diverged, s') => (Diverged, s')
       end.
(** [try { m } catch (error) { h error }] *)
Definition try_catch {A} (m : M A) (h : exn → M A) : M A :=
  λ s, match m s with
       | (Thrown x, s') => h x s'
       | r => r
       end.

Notation "x ← m ; k" := (bind m (λ x, k))
  (at level 20, m at level 100, k at level 200, only parsing).
Notation "m ;; k" := (bind m (λ _, k))
  (at level 100, k at level 200, right associativity, only parsing).

(** ** Reads and writes of the store *)

(** [this.events[eventName]] *)
Definition lookup_event (eventName : string) : M (option nat) :=
  λ s, (Normal (events s !! eventName), s).
(** [this.events[eventName] = a] *)
Definition bind_event (eventName : string) (a : nat) : M unit :=
  λ s, (Normal tt, Bus (<[eventName := a]> (events s)) (arrays s)
                      (wrappers s) (console s) (closure_vars s)).
(** a new array object with the given elements *)
Definition new_array (l : list callback) : M nat :=
  λ s, (Normal (length (arrays s)),
        Bus (events s) (arrays s ++ [l]) (wrappers s) (console s)
            (closure_vars s)).
(** the current elements of array [a] *)
Definition read_array (a : nat) : M (list callback) :=
  λ s, (Normal (default [] (arrays s !! a)), s).
(** [a.push(cb)]: the array object itself is extended *)
Definition push (a : nat) (cb : callback) : M unit :=
  λ s, (Normal tt, Bus (events s) (alter (λ l, l ++ [cb]) a (arrays s))
                      (wrappers s) (console s) (closure_vars s)).
(** a new [wrappedCallback] closure *)
Definition new_wrapper : M nat :=
  λ s, (Normal (wrappers s),
        Bus (events s) (arrays s) (S (wrappers s)) (console s)
            (closure_vars s)).
Definition console_error (eventName : string) (x : exn) : M unit :=
  λ s, (Normal tt, Bus (events s) (arrays s) (wrappers s)
                      (console s ++ [(eventName, x)]) (closure_vars s)).
Definition get_vars : M vars := λ s, (Normal (closure_vars s), s).
Definition set_vars (v : vars) : M unit :=
  λ s, (Normal tt, Bus (events s) (arrays s) (wrappers s) (console s) v).

(** ** The methods *)

(** [on(eventName, callback)].  The function returned unsubscribes
    [callback] from [eventName]; it is represented by that pair. *)
Definition on (eventName : string) (cb : callback)
  : M (string * callback) :=
  r ← lookup_event eventName;
  match r with
  | None => (a ← new_array []; bind_event eventName a)
  | Some _ => ret tt
  end;;
  r ← lookup_event eventName;
  match r with
  | Some a => push a cb
  | None => throw "TypeError"%string
  end;;
  ret (eventName, cb).

(** [off(eventName, callback)]: [filter] builds a new array. *)
Definition off (eventName : string) (cb : callback) : M unit :=
  r ← lookup_event eventName;
  match r with
  | Some a =>
      l ← read_array a;
      a' ← new_array (filter (λ c, c ≠ cb) l);
      bind_event eventName a'
  | None => ret tt
  end.

(** calling the function returned by [on] *)
Definition unsubscribe (h : string * callback) : M unit := off h.1 h.2.

(** [once(eventName, callback)] *)
Definition once (eventName : string) (f : nat) : M unit :=
  n ← new_wrapper;
  on eventName (Wrapped n eventName f);;
  ret tt.

(** [clear(eventName)]; [None] is a call without argument.  The empty
    string is falsy, so [clear('')] clears every name. *)
Definition clear (eventName : option string) : M unit :=
  λ s, let ev := match eventName with
                 | Some e => if decide (e = ""%string) then ∅ else delete e (events s)
                 | None => ∅
                 end in
       (Normal tt, Bus ev (arrays s) (wrappers s) (console s) (closure_vars s)).

Section Calls.
(** [emit] as callable from listener bodies *)
Variable emit' : string → data → M (list callback).

Fixpoint run (sc : script) : M unit :=
  match sc with
  | Return => ret tt
  | Throw x => throw x
  | CallOn e f k => on e (Fn f);; run k
  | CallOnce e f k => once e f;; run k
  | CallOff e f k => off e (Fn f);; run k
  | CallEmit e d k => emit' e d;; run k
  | CallClear e k => clear e;; run k
  | GetVars k => v ← get_vars; run (k v)
  | SetVars v k => set_vars v;; run k
  end.

(** [cb(d)].  A [Wrapped] closure is
    [(data) => { callback(data); this.off(eventName, wrappedCallback); }]. *)
Definition call (cb : callback) (d : data) : M unit :=
  match cb with
  | Fn f => run (behaviour f d)
  | Wrapped _ e f => run (behaviour f d);; off e cb
  end.

(** [Array.prototype.forEach] on array [a], from index [i], with [n]
    indices left of the length read when it started.  Each index is
    looked up in the array as it is at that moment.  The value is the
    list of the callbacks called by this pass, in call order; the
    JavaScript method returns [undefined]. *)
Fixpoint forEach (eventName : string) (a : nat) (d : data) (i n : nat)
  : M (list callback) :=
  match n with
  | O => ret []
  | S n' =>
      l ← read_array a;
      match l !! i with
      | Some cb =>
          try_catch (call cb d) (λ error, console_error eventName error);;
          rest ← forEach eventName a d (S i) n';
          ret (cb :: rest)
      | None => forEach eventName a d (S i) n'
      end
  end.
End Calls.

(** [emit(eventName, data)]; [fuel] bounds how deep [emit] calls may nest. *)
Fixpoint emit (fuel : nat) (eventName : string) (d : data)
  : M (list callback) :=
  match fuel with
  | O => diverge
  | S fuel' =>
      r ← lookup_event eventName;
      match r with
      | Some a =>
          l ← read_array a;
          forEach (emit fuel') eventName a d 0 (length l)
      | None => ret []
      end
  end.

(** [new EventBus()] *)
Definition new (v : vars) : bus := Bus ∅ [] 0 [] v.

(** ** Vocabulary of the statements *)

(** The listeners a publish of [eventName] starting in [s] delivers to. *)
Definition subscribed (eventName : string) (s : bus)
  : option (list callback) :=
  events s !! eventName ≫= λ a, arrays s !! a.

(** Array objects are never shortened or overwritten: from [s] to [s']
    each one keeps its elements, possibly with more pushed at the end. *)
Definition grows (s s' : bus) : Prop :=
  ∀ a l, arrays s !! a = Some l → ∃ more, arrays s' !! a = Some (l ++ more).

Definition steady {A} (m : M A) : Prop :=
  ∀ s r s', m s = (r, s') → grows s s'.

(** The call comes back (normally or by a throw) from every state. *)
Definition finishes {A} (m : M A) : Prop := ∀ s, (m s).1 ≠ Diverged.

(** The application function behind a callback. *)
Definition fn_of (cb : callback) : nat :=
  match cb with Fn f => f | Wrapped _ _ f => f end.

(** The body makes no [emit] call. *)
Fixpoint emit_free (sc : script) : Prop :=
  match sc with
  | Return | Throw _ => True
  | CallOn _ _ k | CallOnce _ _ k | CallOff _ _ k | CallClear _ k
  | SetVars _ k => emit_free k
  | CallEmit _ _ _ => False
  | GetVars k => ∀ v, emit_free (k v)
  end.





(** Of the listeners [ls], the next publish of [eventName] delivers to
    all but [Fn g]. *)
Definition unsubscribed_from
  (eventName : string) (g : nat) (ls : list callback) (s : bus) : Prop :=
  subscribed eventName s = Some (filter (λ c, c ≠ Fn g) ls).

Definition untouched_or_unsubscribed_from
  (eventName : string) (g : nat) (ls : list callback) (s : bus) : Prop :=
  subscribed eventName s = Some ls ∨ unsubscribed_from eventName g ls s.

(** The property names every JavaScript object inherits from
    [Object.prototype].  [this.events[name]] finds a function under them,
    so [on], [off] and [emit] throw a TypeError for such a name; the model
    has no such entries, and the statements about names without listeners
    are made for the other names. *)
Definition inherited_names : list string :=
  ["constructor"; "__proto__"; "hasOwnProperty"; "isPrototypeOf";
   "propertyIsEnumerable"; "toLocaleString"; "toString"; "valueOf";
   "__defineGetter__"; "__defineSetter__"; "__lookupGetter__";
   "__lookupSetter__"]%string.

Definition own_name (eventName : string) : Prop :=
  eventName ∉ inherited_names.

(** Every name is bound to an array object of the store, and no two names
    to the same one. *)
Definition well_formed (s : bus) : Prop :=
  (∀ e a, events s !! e = Some a → a < length (arrays s)) ∧
  (∀ e1 e2 a, events s !! e1 = Some a → events s !! e2 = Some a → e1 = e2).

Definition keeps {A} (P : bus → Prop) (m : M A) : Prop :=
  ∀ s r s', P s → m s = (r, s') → P s'.

(** The body returns or throws at once: it does nothing to the bus. *)
Definition passive (sc : script) : Prop :=
  sc = Return ∨ ∃ x, sc = Throw x.

Definition passive_listener (d : data) (cb : callback) : Prop :=
  match cb with
  | Fn f => passive (behaviour f d)
  | Wrapped _ _ _ => False
  end.

(** The console line a call of [cb] with [d] during a publish of
    [eventName] leaves, when its body throws at once. *)
Definition fault_of (eventName : string) (d : data) (cb : callback)
  : option (string * exn) :=
  match behaviour (fn_of cb) d with
  | Throw x => Some (eventName, x)
  | _ => None
  end.

(** The body subscribes [g] to [eventName] some times, [n] in all, and does
    nothing else to the bus before it returns or throws. *)
Inductive subscribes_only (eventName : string) (g : nat)
  : nat → script → Prop :=
| so_return : subscribes_only eventName g 0 Return
| so_throw x : subscribes_only eventName g 0 (Throw x)
| so_on n k :
    subscribes_only eventName g n k →
    subscribes_only eventName g (S n) (CallOn eventName g k).

(** The listeners are application functions whose bodies, called with [d],
    subscribe [g] to [eventName] [n] times in all. *)
Inductive listeners_subscribe (eventName : string) (g : nat) (d : data)
  : nat → list callback → Prop :=
| ls_nil : listeners_subscribe eventName g d 0 []
| ls_cons f n m l :
    subscribes_only eventName g n (behaviour f d) →
    listeners_subscribe eventName g d m l →
    listeners_subscribe eventName g d (n + m) (Fn f :: l).

(** The bus with other console lines. *)
Definition with_console (c : list (string * exn)) (s : bus) : bus :=
  Bus (events s) (arrays s) (wrappers s) c (closure_vars s).

(** What running a listener is: the body of its function, called with
    [d], is run; a closure of [once] then unsubscribes itself. *)
Definition listener_body (emit' : string → data → M (list callback))
    (d : data) (cb : callback) : M unit :=
  match cb with
  | Fn f => run emit' (behaviour f d)
  | Wrapped _ e f => bind (run emit' (behaviour f d)) (λ _, off e cb)
  end.

(** What a publish of [eventName] to the listeners [ls] comes to, stated
    on the list itself: each listener in turn is run from the state the one
    before left; when it throws, the bus goes on from the state at the throw
    with one more console line, and the next listener has its turn all the
    same.  The value is the list of the listeners run. *)
Fixpoint deliveries (emit' : string → data → M (list callback))
    (eventName : string) (d : data) (ls : list callback) (s : bus)
  : completion (list callback) * bus :=
  match ls with
  | [] => (Normal [], s)
  | cb :: rest =>
      let continue s1 :=
        match deliveries emit' eventName d rest s1 with
        | (Normal called, s2) => (Normal (cb :: called), s2)
        | r => r
        end in
      match listener_body emit' d cb s with
      | (Normal _, s1) => continue s1
      | (Thrown x, s1) =>
          continue (with_console (console s1 ++ [(eventName, x)]) s1)
      | (Diverged, s1) => (Diverged, s1)
      end
  end.

End Model.
End EventBus.

(* ===================================================================== *)
(** * JavaScript numbers and operators                                    *)
(* ===================================================================== *)

Module JS.
Local Open Scope Q_scope.

(** [v || d], for [v] a number or [undefined] ([None]): zero is falsy. *)
Definition or_default (v : option Q) (d : Q) : Q :=
  match v with
  | Some q => if Qeq_bool q 0 then d else q
  | None => d
  end.

(** [if (v)], for [v] a number or [undefined]. *)
Definition truthy (v : option Q) : bool :=
  match v with
  | Some q => negb (Qeq_bool q 0)
  | None => false
  end.

Definition Math_min (a b : Q) : Q := Qmin a b.
Definition Math_max (a b : Q) : Q := Qmax a b.
Definition Math_floor (q : Q) : Q := inject_Z (Qfloor q).
(** [Math.round] rounds to the nearest integer, halves upwards. *)
Definition Math_round (q : Q) : Q := inject_Z (Qfloor (q + (1 # 2))).

(** [a <= b], [a > b], [a >= b], [a < b] *)
Definition le (a b : Q) : bool := Qle_bool a b.
Definition gt (a b : Q) : bool := negb (Qle_bool a b).
Definition ge (a b : Q) : bool := Qle_bool b a.
Definition lt (a b : Q) : bool := negb (Qle_bool b a).

End JS.

(* ===================================================================== *)
(** * Entity, Character, CombatSystem, RPGEngine                          *)
(* ===================================================================== *)

Module RPG.
Import JS.
Local Open Scope Q_scope.

(** An engine object, by identity. *)
Definition EngineRef : Type := nat.

(** ** Entity (core.js, lines 266-331).  The component map is left out: no
    method modelled here reads it. *)
Record Entity : Type := {
  id : string;
  name : string;
  x : Q;
  y : Q;
  active : bool;
  visible : bool;
  engine : option EngineRef;
  tags : list string
}.

Definition new_Entity (id name : string) (x y : Q) : Entity :=
  {| id := id; name := name; x := x; y := y; active := true;
     visible := true; engine := None; tags := [] |}.

(** [entity.engine = g] *)
Definition set_engine (g : option EngineRef) (e : Entity) : Entity :=
  {| id := id e; name := name e; x := x e; y := y e; active := active e;
     visible := visible e; engine := g; tags := tags e |}.

(** ** Character (core.js, lines 337-498).  The inventory is left out: no
    method modelled here reads it. *)

Record Stats : Type := {
  strength : Q;
  dexterity : Q;
  constitution : Q;
  intelligence : Q;
  wisdom : Q;
  charisma : Q
}.

(** An item of equipment: its bonuses, when it defines them. *)
Record Item : Type := {
  item_name : string;
  item_attack : option Q;
  item_defense : option Q
}.

Record Equipment : Type := {
  head : option Item;
  chest : option Item;
  hands : option Item;
  legs : option Item;
  feet : option Item;
  mainHand : option Item;
  offHand : option Item
}.

Record StatusEffect : Type := {
  effect_name : string;
  duration : Q
}.

Record Character : Type := {
  entity :> Entity;
  level : Q;
  experience : Q;
  health : Q;
  maxHealth : Q;
  mana : Q;
  maxMana : Q;
  stats : Stats;
  attack : Q;
  defense : Q;
  attackSpeed : Q;
  movementSpeed : Q;
  equipment : Equipment;
  isAlive : bool;
  isInCombat : bool;
  statusEffects : list StatusEffect
}.

(** The [config] argument of the constructor: each property is a number or
    absent. *)
Record CharacterConfig : Type := {
  cfg_x : option Q;
  cfg_y : option Q;
  cfg_level : option Q;
  cfg_experience : option Q;
  cfg_health : option Q;
  cfg_maxHealth : option Q;
  cfg_mana : option Q;
  cfg_maxMana : option Q;
  cfg_strength : option Q;
  cfg_dexterity : option Q;
  cfg_constitution : option Q;
  cfg_intelligence : option Q;
  cfg_wisdom : option Q;
  cfg_charisma : option Q;
  cfg_attack : option Q;
  cfg_defense : option Q;
  cfg_attackSpeed : option Q;
  cfg_movementSpeed : option Q
}.

(** [{}] *)
Definition empty_config : CharacterConfig :=
  {| cfg_x := None; cfg_y := None; cfg_level := None; cfg_experience := None;
     cfg_health := None; cfg_maxHealth := None; cfg_mana := None;
     cfg_maxMana := None; cfg_strength := None; cfg_dexterity := None;
     cfg_constitution := None; cfg_intelligence := None; cfg_wisdom := None;
     cfg_charisma := None; cfg_attack := None; cfg_defense := None;
     cfg_attackSpeed := None; cfg_movementSpeed := None |}.

Definition no_equipment : Equipment :=
  {| head := None; chest := None; hands := None; legs := None; feet := None;
     mainHand := None; offHand := None |}.

(** [new Character(id, name, config)] *)
Definition new_Character (id name : string) (config : CharacterConfig)
  : Character :=
  {| entity := new_Entity id name (or_default (cfg_x config) 0)
                 (or_default (cfg_y config) 0);
     level := or_default (cfg_level config) 1;
     experience := or_default (cfg_experience config) 0;
     health := or_default (cfg_health config) 100;
     maxHealth := or_default (cfg_maxHealth config) 100;
     mana := or_default (cfg_mana config) 50;
     maxMana := or_default (cfg_maxMana config) 50;
     stats := {| strength := or_default (cfg_strength config) 10;
                 dexterity := or_default (cfg_dexterity config) 10;
                 constitution := or_default (cfg_constitution config) 10;
                 intelligence := or_default (cfg_intelligence config) 10;
                 wisdom := or_default (cfg_wisdom config) 10;
                 charisma := or_default (cfg_charisma config) 10 |};
     attack := or_default (cfg_attack config) 5;
     defense := or_default (cfg_defense config) 5;
     attackSpeed := or_default (cfg_attackSpeed config) 1;
     movementSpeed := or_default (cfg_movementSpeed config) 100;
     equipment := no_equipment;
     isAlive := true;
     isInCombat := false;
     statusEffects := [] |}.

(** Assignments to the fields the methods below write. *)
Definition set_entity (e : Entity) (c : Character) : Character :=
  {| entity := e; level := level c; experience := experience c;
     health := health c; maxHealth := maxHealth c; mana := mana c;
     maxMana := maxMana c; stats := stats c; attack := attack c;
     defense := defense c; attackSpeed := attackSpeed c;
     movementSpeed := movementSpeed c; equipment := equipment c;
     isAlive := isAlive c; isInCombat := isInCombat c;
     statusEffects := statusEffects c |}.
Definition set_level (v : Q) (c : Character) : Character :=
  {| entity := entity c; level := v; experience := experience c;
     health := health c; maxHealth := maxHealth c; mana := mana c;
     maxMana := maxMana c; stats := stats c; attack := attack c;
     defense := defense c; attackSpeed := attackSpeed c;
     movementSpeed := movementSpeed c; equipment := equipment c;
     isAlive := isAlive c; isInCombat := isInCombat c;
     statusEffects := statusEffects c |}.
Definition set_experience (v : Q) (c : Character) : Character :=
  {| entity := entity c; level := level c; experience := v;
     health := health c; maxHealth := maxHealth c; mana := mana c;
     maxMana := maxMana c; stats := stats c; attack := attack c;
     defense := defense c; attackSpeed := attackSpeed c;
     movementSpeed := movementSpeed c; equipment := equipment c;
     isAlive := isAlive c; isInCombat := isInCombat c;
     statusEffects := statusEffects c |}.
Definition set_health (v : Q) (c : Character) : Character :=
  {| entity := entity c; level := level c; experience := experience c;
     health := v; maxHealth := maxHealth c; mana := mana c;
     maxMana := maxMana c; stats := stats c; attack := attack c;
     defense := defense c; attackSpeed := attackSpeed c;
     movementSpeed := movementSpeed c; equipment := equipment c;
     isAlive := isAlive c; isInCombat := isInCombat c;
     statusEffects := statusEffects c |}.
Definition set_maxHealth (v : Q) (c : Character) : Character :=
  {| entity := entity c; level := level c; experience := experience c;
     health := health c; maxHealth := v; mana := mana c;
     maxMana := maxMana c; stats := stats c; attack := attack c;
     defense := defense c; attackSpeed := attackSpeed c;
     movementSpeed := movementSpeed c; equipment := equipment c;
     isAlive := isAlive c; isInCombat := isInCombat c;
     statusEffects := statusEffects c |}.
Definition set_mana (v : Q) (c : Character) : Character :=
  {| entity := entity c; level := level c; experience := experience c;
     health := health c; maxHealth := maxHealth c; mana := v;
     maxMana := maxMana c; stats := stats c; attack := attack c;
     defense := defense c; attackSpeed := attackSpeed c;
     movementSpeed := movementSpeed c; equipment := equipment c;
     isAlive := isAlive c; isInCombat := isInCombat c;
     statusEffects := statusEffects c |}.
Definition set_maxMana (v : Q) (c : Character) : Character :=
  {| entity := entity c; level := level c; experience := experience c;
     health := health c; maxHealth := maxHealth c; mana := mana c;
     maxMana := v; stats := stats c; attack := attack c;
     defense := defense c; attackSpeed := attackSpeed c;
     movementSpeed := movementSpeed c; equipment := equipment c;
     isAlive := isAlive c; isInCombat := isInCombat c;
     statusEffects := statusEffects c |}.
Definition set_isAlive (v : bool) (c : Character) : Character :=
  {| entity := entity c; level := level c; experience := experience c;
     health := health c; maxHealth := maxHealth c; mana := mana c;
     maxMana := maxMana c; stats := stats c; attack := attack c;
     defense := defense c; attackSpeed := attackSpeed c;
     movementSpeed := movementSpeed c; equipment := equipment c;
     isAlive := v; isInCombat := isInCombat c;
     statusEffects := statusEffects c |}.
Definition set_equipment (v : Equipment) (c : Character) : Character :=
  {| entity := entity c; level := level c; experience := experience c;
     health := health c; maxHealth := maxHealth c; mana := mana c;
     maxMana := maxMana c; stats := stats c; attack := attack c;
     defense := defense c; attackSpeed := attackSpeed c;
     movementSpeed := movementSpeed c; equipment := v;
     isAlive := isAlive c; isInCombat := isInCombat c;
     statusEffects := statusEffects c |}.

(** ** What is published *)

(** What the engine's registry holds: plain entities and characters. *)
Inductive GameObject : Type :=
| PlainEntity (e : Entity)
| ACharacter (c : Character).

Definition base (o : GameObject) : Entity :=
  match o with PlainEntity e => e | ACharacter c => entity c end.

Definition set_base (e : Entity) (o : GameObject) : GameObject :=
  match o with
  | PlainEntity _ => PlainEntity e
  | ACharacter c => ACharacter (set_entity e c)
  end.

(** The object passed to [emit]; an object inside it is given as it is when
    [emit] is called. *)
Inductive Payload : Type :=
| EntityPayload (entity : GameObject)
| CharacterPayload (character : Character)
| LevelUpPayload (character : Character) (newLevel : Q).

(** One call [g.eventBus.emit(topic, payload)].  A method's calls of [emit]
    are collected in call order; what the bus then does with each of them is
    [EventBus.emit].  Listeners are taken not to call back into the object
    whose method is running. *)
Record Publication : Type := {
  bus_of : EngineRef;
  topic : string;
  payload : Payload
}.

(** [if (this.engine) { this.engine.eventBus.emit(topic, payload); }] *)
Definition emit_if_engine (this : Entity) (topic : string) (payload : Payload)
  : list Publication :=
  match engine this with
  | Some g => [{| bus_of := g; topic := topic; payload := payload |}]
  | None => []
  end.

(** ** Character methods.  Each gives the value returned (when there is
    one), the character afterwards and the publications made. *)

Definition takeDamage (amount : Q) (this : Character)
  : Q * Character * list Publication :=
  let this := set_health (health this - amount) this in
  if le (health this) 0 then
    let this := set_health 0 this in
    let this := set_isAlive false this in
    (health this, this,
     emit_if_engine this "character:died" (CharacterPayload this))
  else (health this, this, []).

Definition heal (amount : Q) (this : Character) : Q * Character :=
  let this := set_health (Math_min (health this + amount) (maxHealth this))
                this in
  (health this, this).

Definition levelUp (newLevel : Q) (this : Character)
  : Character * list Publication :=
  let levelDifference := newLevel - level this in
  let this := set_level newLevel this in
  let this := set_maxHealth (maxHealth this + 10 * levelDifference) this in
  let this := set_maxMana (maxMana this + 5 * levelDifference) this in
  let this := set_health (maxHealth this) this in
  let this := set_mana (maxMana this) this in
  (this, emit_if_engine this "character:levelUp" (LevelUpPayload this newLevel)).

Definition addExperience (amount : Q) (this : Character)
  : Character * list Publication :=
  let this := set_experience (experience this + amount) this in
  let newLevel := Math_floor (experience this / 100) + 1 in
  if gt newLevel (level this) then levelUp newLevel this
  else (this, []).

(** [equipItem(item, 'mainHand')] *)
Definition equip_mainHand (item : Item) (this : Character)
  : option Item * Character :=
  let e := equipment this in
  (mainHand e,
   set_equipment {| head := head e; chest := chest e; hands := hands e;
                    legs := legs e; feet := feet e; mainHand := Some item;
                    offHand := offHand e |} this).

Definition calculateTotalAttack (this : Character) : Q :=
  let total := attack this in
  match mainHand (equipment this) with
  | Some item => total + or_default (item_attack item) 0
  | None => total
  end.

(** [Object.keys(this.equipment)]: the slots in the order they were
    defined. *)
Definition slots (e : Equipment) : list (option Item) :=
  [head e; chest e; hands e; legs e; feet e; mainHand e; offHand e].

Definition calculateTotalDefense (this : Character) : Q :=
  foldl (λ total slot,
           match slot with
           | Some item =>
               if truthy (item_defense item)
               then total + default 0 (item_defense item)
               else total
           | None => total
           end)
        (defense this) (slots (equipment this)).

(** ** CombatSystem (core.js, lines 569-609) *)

(** The source of [Math.random()]: the values it will give, and how many
    were taken. *)
Record Random : Type := {
  draws : nat → Q;
  drawn : nat
}.

Definition Math_random (r : Random) : Q * Random :=
  (draws r (drawn r), {| draws := draws r; drawn := S (drawn r) |}).

Record AttackResult : Type := {
  hit : bool;
  damage : Q;
  critical : bool
}.

Definition calculateDamage (attacker defender : Character)
    (baseMultiplier : Q) (r : Random) : Q * Random :=
  let attackPower := calculateTotalAttack attacker * baseMultiplier in
  let defenseReduction := calculateTotalDefense defender * (1 # 2) in
  let '(u, r) := Math_random r in
  let variance := u * (2 # 10) - (1 # 10) in
  let damage := Math_max 1 ((attackPower - defenseReduction) * (1 + variance)) in
  (Math_round damage, r).

Definition hitChance (attacker defender : Character) : Q :=
  Math_min (95 # 100)
    ((5 # 10)
     + (dexterity (stats attacker) - dexterity (stats defender)) * (1 # 100)).

(** [performAttack(attacker, defender)]: the result, the defender
    afterwards, the publications made and the random source afterwards. *)
Definition performAttack (attacker defender : Character) (r : Random)
  : AttackResult * Character * list Publication * Random :=
  let hitChance := hitChance attacker defender in
  let '(u, r) := Math_random r in
  if gt u hitChance then
    ({| hit := false; damage := 0; critical := false |}, defender, [], r)
  else
    let '(u, r) := Math_random r in
    let isCritical := lt u (dexterity (stats attacker) / 100) in
    let multiplier := if isCritical then 15 # 10 else 1 in
    let '(damage, r) := calculateDamage attacker defender multiplier r in
    let '(_, defender, published) := takeDamage damage defender in
    ({| hit := true; damage := damage; critical := isCritical |},
     defender, published, r).

(** ** RPGEngine: configuration and entity registry (core.js, lines 18-54
    and 220-252) *)

(** The [config] argument of the constructor. *)
Record EngineOptions : Type := {
  opt_fps : option Q;
  opt_maxEntities : option Q;
  opt_screenWidth : option Q;
  opt_screenHeight : option Q
}.

Record EngineConfig : Type := {
  fps : Q;
  maxEntities : Q;
  screenWidth : Q;
  screenHeight : Q
}.

Record RPGEngine : Type := {
  self : EngineRef;
  isRunning : bool;
  isPaused : bool;
  config : EngineConfig;
  entities : gmap string GameObject
}.

(** [{ fps: config.fps || 60, ..., ...config }]: the spread comes last, so
    a property present in [config] wins over the default, zero included. *)
Definition spread (v : option Q) (d : Q) : Q :=
  match v with Some q => q | None => d end.

(** [new RPGEngine(config)], as object [self] *)
Definition new_RPGEngine (self : EngineRef) (config : EngineOptions)
  : RPGEngine :=
  {| self := self; isRunning := false; isPaused := false;
     config := {| fps := spread (opt_fps config)
                           (or_default (opt_fps config) 60);
                  maxEntities := spread (opt_maxEntities config)
                                   (or_default (opt_maxEntities config) 1000);
                  screenWidth := spread (opt_screenWidth config)
                                   (or_default (opt_screenWidth config) 800);
                  screenHeight := spread (opt_screenHeight config)
                                    (or_default (opt_screenHeight config) 600) |};
     entities := ∅ |}.

Definition no_options : EngineOptions :=
  {| opt_fps := None; opt_maxEntities := None; opt_screenWidth := None;
     opt_screenHeight := None |}.

Definition set_entities (m : gmap string GameObject) (this : RPGEngine)
  : RPGEngine :=
  {| self := self this; isRunning := isRunning this;
     isPaused := isPaused this; config := config this; entities := m |}.

(** [this.entities.size] *)
Definition entities_size (this : RPGEngine) : Q :=
  inject_Z (Z.of_nat (size (entities this))).

(** [addEntity(entity)]: the value returned, the engine and the entity
    afterwards, the publications made. *)
Definition addEntity (entity : GameObject) (this : RPGEngine)
  : bool * RPGEngine * GameObject * list Publication :=
  if ge (entities_size this) (maxEntities (config this)) then
    (false, this, entity, [])
  else
    let entity := set_base (set_engine (Some (self this)) (base entity)) entity in
    let this := set_entities (<[id (base entity) := entity]> (entities this))
                  this in
    (true, this, entity,
     [{| bus_of := self this; topic := "entity:added";
         payload := EntityPayload entity |}]).

Definition removeEntity (entityId : string) (this : RPGEngine)
  : bool * RPGEngine * list Publication :=
  match entities this !! entityId with
  | Some entity =>
      (true, set_entities (delete entityId (entities this)) this,
       [{| bus_of := self this; topic := "entity:removed";
           payload := EntityPayload entity |}])
  | None => (false, this, [])
  end.

Definition getEntity (entityId : string) (this : RPGEngine)
  : option GameObject :=
  entities this !! entityId.

(** ** Vocabulary of the statements *)

(** The public operations that change a character's vital state. *)
Inductive Operation : Type :=
| TakeDamage (amount : Q)
| Heal (amount : Q)
| AddExperience (amount : Q)
| LevelUp (newLevel : Q).

Definition perform (op : Operation) (this : Character) : Character :=
  match op with
  | TakeDamage amount => (takeDamage amount this).1.2
  | Heal amount => (heal amount this).2
  | AddExperience amount => (addExperience amount this).1
  | LevelUp newLevel => (levelUp newLevel this).1
  end.

(** health ∈ [0, maxHealth], and [isAlive] is false iff health is 0 *)
Definition vital_invariant (c : Character) : Prop :=
  0 <= health c ∧ health c <= maxHealth c ∧
  (isAlive c = false ↔ health c == 0).

(** The calls under which the invariant is kept: damage and healing by
    amounts that are not negative, healing, experience and level-up for a
    living character only, level-up to a level not below the current one. *)
Definition keeps_invariant (this : Character) (op : Operation) : Prop :=
  match op with
  | TakeDamage amount => 0 <= amount
  | Heal amount => 0 <= amount ∧ isAlive this = true
  | AddExperience _ => isAlive this = true
  | LevelUp newLevel => isAlive this = true ∧ level this <= newLevel
  end.

(** One [addExperience] call per amount, in order. *)
Definition addExperience_all (amounts : list Q) (this : Character)
  : Character :=
  foldl (λ c amount, (addExperience amount c).1) this amounts.

(** The level that goes with an amount of experience: 100 per level. *)
Definition level_for (experience : Q) : Q :=
  Math_floor (experience / 100) + 1.

(** A character that has gained nothing yet. *)
Definition fresh (c : Character) : Prop := experience c = 0 ∧ level c = 1.

(** A configured property with a zero taken for an absent one. *)
Definition drop_zero (v : option Q) : option Q :=
  match v with
  | Some q => if Qeq_bool q 0 then None else Some q
  | None => None
  end.

Definition without_zeros (config : CharacterConfig) : CharacterConfig :=
  {| cfg_x := drop_zero (cfg_x config);
     cfg_y := drop_zero (cfg_y config);
     cfg_level := drop_zero (cfg_level config);
     cfg_experience := drop_zero (cfg_experience config);
     cfg_health := drop_zero (cfg_health config);
     cfg_maxHealth := drop_zero (cfg_maxHealth config);
     cfg_mana := drop_zero (cfg_mana config);
     cfg_maxMana := drop_zero (cfg_maxMana config);
     cfg_strength := drop_zero (cfg_strength config);
     cfg_dexterity := drop_zero (cfg_dexterity config);
     cfg_constitution := drop_zero (cfg_constitution config);
     cfg_intelligence := drop_zero (cfg_intelligence config);
     cfg_wisdom := drop_zero (cfg_wisdom config);
     cfg_charisma := drop_zero (cfg_charisma config);
     cfg_attack := drop_zero (cfg_attack config);
     cfg_defense := drop_zero (cfg_defense config);
     cfg_attackSpeed := drop_zero (cfg_attackSpeed config);
     cfg_movementSpeed := drop_zero (cfg_movementSpeed config) |}.

(** The properties of a character that the constructor defaults to a
    value other than zero. *)
Definition base_values (c : Character) : list Q :=
  [level c; health c; maxHealth c; mana c; maxMana c;
   strength (stats c); dexterity (stats c); constitution (stats c);
   intelligence (stats c); wisdom (stats c); charisma (stats c);
   attack c; defense c; attackSpeed c; movementSpeed c].

(** ** More of Character: equipment *)

(** The seven properties of [this.equipment]. *)
Inductive Slot : Type :=
| Head | Chest | Hands | Legs | Feet | MainHand | OffHand.

#[global] Instance Slot_eq_dec : EqDecision Slot.
Proof. solve_decision. Defined.

Definition slot_name (sl : Slot) : string :=
  match sl with
  | Head => "head" | Chest => "chest" | Hands => "hands" | Legs => "legs"
  | Feet => "feet" | MainHand => "mainHand" | OffHand => "offHand"
  end.

(** [this.equipment.hasOwnProperty(slot)], with the slot it names *)
Definition slot_named (slot : string) : option Slot :=
  if decide (slot = "head") then Some Head
  else if decide (slot = "chest") then Some Chest
  else if decide (slot = "hands") then Some Hands
  else if decide (slot = "legs") then Some Legs
  else if decide (slot = "feet") then Some Feet
  else if decide (slot = "mainHand") then Some MainHand
  else if decide (slot = "offHand") then Some OffHand
  else None.

(** [equipment[slot]] *)
Definition get_slot (sl : Slot) (e : Equipment) : option Item :=
  match sl with
  | Head => head e | Chest => chest e | Hands => hands e | Legs => legs e
  | Feet => feet e | MainHand => mainHand e | OffHand => offHand e
  end.

(** [equipment[slot] = v] *)
Definition set_slot (sl : Slot) (v : option Item) (e : Equipment) : Equipment :=
  {| head := if sl is Head then v else head e;
     chest := if sl is Chest then v else chest e;
     hands := if sl is Hands then v else hands e;
     legs := if sl is Legs then v else legs e;
     feet := if sl is Feet then v else feet e;
     mainHand := if sl is MainHand then v else mainHand e;
     offHand := if sl is OffHand then v else offHand e |}.

(** [equipItem(item, slot)]: the item that was in the slot, [None] for
    [null]. *)
Definition equipItem (item : Item) (slot : string) (this : Character)
  : option Item * Character :=
  match slot_named slot with
  | Some sl =>
      let previousItem := get_slot sl (equipment this) in
      (previousItem,
       set_equipment (set_slot sl (Some item) (equipment this)) this)
  | None => (None, this)
  end.

(** [unequipItem(slot)] for one of the seven slots.  (With another name the
    JavaScript adds a property to [this.equipment]; such calls are outside
    this model, whose equipment has the seven properties only.) *)
Definition unequipItem (sl : Slot) (this : Character)
  : option Item * Character :=
  let item := get_slot sl (equipment this) in
  (item, set_equipment (set_slot sl None (equipment this)) this).

(** What a slot adds to the total defense. *)
Definition defense_bonus (slot : option Item) : Q :=
  match slot with
  | Some item => or_default (item_defense item) 0
  | None => 0
  end.

(** ** More of CombatSystem *)

(** [calculateExperienceReward(defeatedCharacter, level)] *)
Definition calculateExperienceReward (defeatedCharacter : Character)
    (level' : Q) : Q :=
  let baseExp := 50 in
  let levelBonus := baseExp * (level defeatedCharacter - 1) * (15 # 10) in
  Math_round ((baseExp + levelBonus) * (1 + level' * (1 # 10))).

(** ** More of RPGEngine: calls on the registry in sequence *)

Inductive RegistryCall : Type :=
| AddEntity (entity : GameObject)
| RemoveEntity (entityId : string).

Definition registry_call (c : RegistryCall) (this : RPGEngine) : RPGEngine :=
  match c with
  | AddEntity entity => (addEntity entity this).1.1.2
  | RemoveEntity entityId => (removeEntity entityId this).1.2
  end.

Definition registry_calls (cs : list RegistryCall) (this : RPGEngine)
  : RPGEngine :=
  foldl (λ g c, registry_call c g) this cs.

End RPG.

(* ===================================================================== *)
(** * Inventory (core.js, lines 504-563)                                  *)
(* ===================================================================== *)

Module Inventory.
Import JS.
Local Open Scope Q_scope.

(** An entry of [this.items]: the properties the methods read.
    [stackable] is the truthiness of the property. *)
Record InventoryItem : Type := {
  id : string;
  type : string;
  stackable : bool;
  quantity : Q
}.

Record Inventory : Type := {
  maxSlots : Q;
  items : list InventoryItem
}.

(** [new Inventory(maxSlots)]; [new Inventory()] is [new_Inventory 20]. *)
Definition new_Inventory (maxSlots : Q) : Inventory :=
  {| maxSlots := maxSlots; items := [] |}.

Definition set_items (l : list InventoryItem) (this : Inventory) : Inventory :=
  {| maxSlots := maxSlots this; items := l |}.

Definition set_quantity (q : Q) (i : InventoryItem) : InventoryItem :=
  {| id := id i; type := type i; stackable := stackable i; quantity := q |}.

(** An assignment to the object [find] returned: the first element that
    satisfies [p] is changed where it stands. *)
Fixpoint update_first (p : InventoryItem → bool)
    (f : InventoryItem → InventoryItem) (l : list InventoryItem)
  : list InventoryItem :=
  match l with
  | [] => []
  | i :: l' => if p i then f i :: l' else i :: update_first p f l'
  end.

(** [i.id === itemId] *)
Definition has_id (itemId : string) (i : InventoryItem) : bool :=
  bool_decide (id i = itemId).

(** [addItem(item, quantity)] *)
Definition addItem (item : InventoryItem) (quantity' : Q) (this : Inventory)
  : bool * Inventory :=
  let stacks_with i := has_id (id item) i && stackable i in
  match List.find stacks_with (items this) with
  | Some existingItem =>
      (true,
       set_items (update_first stacks_with
                    (λ i, set_quantity (quantity i + quantity') i)
                    (items this)) this)
  | None =>
      if lt (inject_Z (Z.of_nat (length (items this)))) (maxSlots this)
      then (true, set_items (items this ++ [set_quantity quantity' item]) this)
      else (false, this)
  end.

(** [removeItem(itemId, quantity)] *)
Definition removeItem (itemId : string) (quantity' : Q) (this : Inventory)
  : bool * Inventory :=
  match List.find (has_id itemId) (items this) with
  | Some item =>
      let this := set_items (update_first (has_id itemId)
                               (λ i, set_quantity (quantity i - quantity') i)
                               (items this)) this in
      if le (quantity item - quantity') 0
      then (true,
            set_items (List.filter (λ i, negb (has_id itemId i)) (items this))
              this)
      else (true, this)
  | None => (false, this)
  end.

Definition getItem (itemId : string) (this : Inventory)
  : option InventoryItem :=
  List.find (has_id itemId) (items this).

Definition getItemsByType (type' : string) (this : Inventory)
  : list InventoryItem :=
  List.filter (λ i, bool_decide (type i = type')) (items this).

Definition isFull (this : Inventory) : bool :=
  ge (inject_Z (Z.of_nat (length (items this)))) (maxSlots this).

Definition getSize (this : Inventory) : nat := length (items this).

Definition clear (this : Inventory) : Inventory := set_items [] this.

(** ** Vocabulary of the statements *)

(** The quantity held of an id, over all entries. *)
Definition total_quantity (itemId : string) (l : list InventoryItem) : Q :=
  foldr (λ i acc, if has_id itemId i then quantity i + acc else acc) 0 l.

Inductive InventoryCall : Type :=
| AddItem (item : InventoryItem) (quantity : Q)
| RemoveItem (itemId : string) (quantity : Q)
| Clear.

Definition inventory_call (c : InventoryCall) (this : Inventory) : Inventory :=
  match c with
  | AddItem item q => (addItem item q this).2
  | RemoveItem itemId q => (removeItem itemId q this).2
  | Clear => clear this
  end.

Definition inventory_calls (cs : list InventoryCall) (this : Inventory)
  : Inventory :=
  foldl (λ inv c, inventory_call c inv) this cs.

End Inventory.

(* ===================================================================== *)
(** * Scene: its list of entities (core.js, lines 864-913)                *)
(* ===================================================================== *)

Module Scene.
Import RPG.

(** A scene without its [engine] reference: the engine is passed to the
    methods that use it.  The list holds the entities as they are when they
    are added; the statements read their ids only. *)
Record Scene : Type := {
  name : string;
  entities : list GameObject;
  isLoaded : bool
}.

(** [new Scene(name, engine)] *)
Definition new_Scene (name : string) : Scene :=
  {| name := name; entities := []; isLoaded := false |}.

Definition load (this : Scene) : Scene :=
  {| name := name this; entities := entities this; isLoaded := true |}.

(** [addEntity(entity)]: [this.entities.push(entity)], then
    [this.engine.addEntity(entity)], whose result is dropped.  The object
    pushed is the one the engine sets the [engine] of. *)
Definition addEntity (entity : GameObject) (this : Scene) (engine : RPGEngine)
  : Scene * RPGEngine * list Publication :=
  let '(_, engine, entity, published) := RPG.addEntity entity engine in
  ({| name := name this; entities := entities this ++ [entity];
      isLoaded := isLoaded this |},
   engine, published).

(** [removeEntity(entity)] *)
Definition removeEntity (entity : GameObject) (this : Scene)
    (engine : RPGEngine) : Scene * RPGEngine * list Publication :=
  let this :=
    {| name := name this;
       entities := filter (λ e, id (base e) ≠ id (base entity)) (entities this);
       isLoaded := isLoaded this |} in
  let '(_, engine, published) := RPG.removeEntity (id (base entity)) engine in
  (this, engine, published).

(** The ids of the scene's entities, in order. *)
Definition ids (this : Scene) : list string :=
  map (λ e, id (base e)) (entities this).

End Scene.

(** ** A concrete bus *)

Module BusScenario.
Import EventBus.

(** Four application functions: 0 returns, 1 throws, 2 unsubscribes
    function 3 from ["hit"], 3 returns. *)
Definition behaviour (f : nat) (_ : unit) : @script unit unit :=
  match f with
  | 1 => Throw "boom"
  | 2 => CallOff "hit" 3 Return
  | _ => Return
  end.

(** The state a computation leaves. *)
Definition after {A} (m : @M unit A) (s : @bus unit) : @bus unit := (m s).2.

(** [on('hit', f0); on('hit', f1); on('hit', f2); on('hit', f3)] on a new
    bus. *)
Definition four_listeners : @bus unit :=
  after (on "hit" (Fn 3))
    (after (on "hit" (Fn 2))
       (after (on "hit" (Fn 1)) (after (on "hit" (Fn 0)) (new tt)))).


End BusScenario.

(** ** A bus whose listeners leave a trace *)

Module RecordingScenario.
Import EventBus.

(** Every function appends its number to the list its closure holds;
    function 1 then throws, the others return. *)
Definition behaviour (f : nat) (_ : unit) : @script unit (list nat) :=
  GetVars (λ seen,
    SetVars (seen ++ [f])
      (match f with
       | 1 => Throw "boom"
       | _ => Return
       end)).

(** [on('hit', f0); on('hit', f1); on('hit', f2)] on a new bus *)
Definition three_recorders : @bus (list nat) :=
  (on "hit" (Fn 2)
     (on "hit" (Fn 1) (on "hit" (Fn 0) (new [])).2).2).2.

End RecordingScenario.

(** ** A concrete game *)

Module GameScenario.
Import RPG.
Local Open Scope Q_scope.

Definition engine0 : RPGEngine := new_RPGEngine 0%nat no_options.

Definition hero : Character := new_Character "hero" "Hero" empty_config.

(** the hero once [engine0.addEntity(hero)] has run *)
Definition registered_hero : Character :=
  match addEntity (ACharacter hero) engine0 with
  | (_, _, ACharacter c, _) => c
  | _ => hero
  end.

(** [{ health: 0, level: 0, attack: 0, mana: 0 }] *)
Definition zero_config : CharacterConfig :=
  {| cfg_x := None; cfg_y := None; cfg_level := Some 0;
     cfg_experience := None; cfg_health := Some 0; cfg_maxHealth := None;
     cfg_mana := Some 0; cfg_maxMana := None; cfg_strength := None;
     cfg_dexterity := None; cfg_constitution := None;
     cfg_intelligence := None; cfg_wisdom := None; cfg_charisma := None;
     cfg_attack := Some 0; cfg_defense := None; cfg_attackSpeed := None;
     cfg_movementSpeed := None |}.

(** an engine for at most one entity, holding the hero *)
Definition full_engine : RPGEngine :=
  (addEntity (ACharacter hero)
     (new_RPGEngine 1%nat
        {| opt_fps := None; opt_maxEntities := Some 1;
           opt_screenWidth := None; opt_screenHeight := None |})).1.1.2.

Definition rat : Character :=
  new_Character "rat" "Rat" empty_config.

(** a source of random numbers that always gives [u] *)
Definition always (u : Q) : Random := {| draws := λ _, u; drawn := 0 |}.

End GameScenario.

(** ** More concrete buses, characters and stores *)

Module MoreScenarios.
Import RPG.
Local Open Scope Q_scope.

(** Function 0 subscribes function 5 to ["hit"]; the others return. *)
Definition subscribing_behaviour (f : nat) (_ : unit)
  : @EventBus.script unit unit :=
  match f with
  | 0%nat => EventBus.CallOn "hit" 5 EventBus.Return
  | _ => EventBus.Return
  end.

(** [on('hit', f0)] on a new bus *)
Definition one_listener : @EventBus.bus unit :=
  BusScenario.after (EventBus.on "hit" (EventBus.Fn 0)) (EventBus.new tt).

(** [on('hit', f0); on('hit', f1); on('hit', f3)] on a new bus *)
Definition three_listeners : @EventBus.bus unit :=
  BusScenario.after (EventBus.on "hit" (EventBus.Fn 3))
    (BusScenario.after (EventBus.on "hit" (EventBus.Fn 1))
       (BusScenario.after (EventBus.on "hit" (EventBus.Fn 0))
          (EventBus.new tt))).

Definition with_dexterity_and_defense (dex def : Q) : CharacterConfig :=
  {| cfg_x := None; cfg_y := None; cfg_level := None;
     cfg_experience := None; cfg_health := None; cfg_maxHealth := None;
     cfg_mana := None; cfg_maxMana := None; cfg_strength := None;
     cfg_dexterity := Some dex; cfg_constitution := None;
     cfg_intelligence := None; cfg_wisdom := None; cfg_charisma := None;
     cfg_attack := None; cfg_defense := Some def; cfg_attackSpeed := None;
     cfg_movementSpeed := None |}.

(** dexterity 70, defense 20 *)
Definition knight : Character :=
  new_Character "knight" "Knight" (with_dexterity_and_defense 70 20).

Definition potion : Inventory.InventoryItem :=
  {| Inventory.id := "potion"; Inventory.type := "consumable";
     Inventory.stackable := true; Inventory.quantity := 1 |}.

End MoreScenarios.

(* ===================================================================== *)
(** * Properties of the EventBus                                          *)
(* ===================================================================== *)

Section EventBusFacts.
Import EventBus.
Context {data vars : Type}.
Variable behaviour : nat → data → @script data vars.

Local Abbreviation bus := (@bus vars).
Local Abbreviation M := (@M vars).

Ltac run_m :=
    repeat (unfold bind, ret, throw, diverge, try_catch, lookup_event,
            bind_event, new_array, read_array, push, new_wrapper,
            console_error, get_vars, set_vars, clear in *; simpl in *).

Lemma grows_refl (s : bus) : grows s s.
Proof. intros a l H. exists []. by rewrite app_nil_r. Qed.

Lemma grows_trans (s1 s2 s3 : bus) : grows s1 s2 → grows s2 s3 → grows s1 s3.
Proof.
    intros H12 H23 a l H.
    destruct (H12 a l H) as [m1 H1]. destruct (H23 a _ H1) as [m2 H2].
    exists (m1 ++ m2). by rewrite app_assoc.
Qed.

Lemma grows_same_arrays (s s' : bus) : arrays s' = arrays s → grows s s'.
Proof. intros E a l H. exists []. by rewrite E, app_nil_r. Qed.

Lemma steady_ret {A} (a : A) : steady (vars:=vars) (ret a).
Proof. intros s r s' [= <- <-]. apply grows_refl. Qed.

Lemma steady_throw {A} x : steady (vars:=vars) (A:=A) (throw x).
Proof. intros s r s' [= <- <-]. apply grows_refl. Qed.

Lemma steady_diverge {A} : steady (vars:=vars) (A:=A) diverge.
Proof. intros s r s' [= <- <-]. apply grows_refl. Qed.

Lemma steady_bind {A B} (m : M A) (k : A → M B) :
    steady m → (∀ a, steady (k a)) → steady (bind m k).
Proof.
    intros Hm Hk s r s' H. unfold bind in H.
    destruct (m s) as [[a|x|] s1] eqn:E.
    - eapply grows_trans; [by eapply Hm | by eapply Hk].
    - injection H as <- <-. by eapply Hm.
    - injection H as <- <-. by eapply Hm.
Qed.

Lemma steady_try_catch {A} (m : M A) (h : exn → M A) :
    steady m → (∀ x, steady (h x)) → steady (try_catch m h).
Proof.
    intros Hm Hh s r s' H. unfold try_catch in H.
    destruct (m s) as [[a|x|] s1] eqn:E.
    - injection H as <- <-. by eapply Hm.
    - eapply grows_trans; [by eapply Hm | by eapply Hh].
    - injection H as <- <-. by eapply Hm.
Qed.

Lemma steady_lookup_event e : steady (vars:=vars) (lookup_event e).
Proof. intros s r s' [= <- <-]. apply grows_refl. Qed.

Lemma steady_bind_event e a : steady (vars:=vars) (bind_event e a).
Proof. intros s r s' [= <- <-]. by apply grows_same_arrays. Qed.

Lemma steady_new_array l : steady (vars:=vars) (new_array l).
Proof.
    intros s r s' [= <- <-] a l' H. exists []. simpl.
    rewrite app_nil_r. by apply lookup_app_l_Some.
Qed.

Lemma steady_read_array a : steady (vars:=vars) (read_array a).
Proof. intros s r s' [= <- <-]. apply grows_refl. Qed.

Lemma steady_push a cb : steady (vars:=vars) (push a cb).
Proof.
    intros s r s' [= <- <-] b l H. simpl.
    destruct (decide (a = b)) as [->|Hne].
    - exists [cb]. rewrite list_lookup_alter_eq, H. done.
    - exists []. rewrite list_lookup_alter_ne, app_nil_r; done.
Qed.

Lemma steady_new_wrapper : steady (vars:=vars) new_wrapper.
Proof. intros s r s' [= <- <-]. by apply grows_same_arrays. Qed.

Lemma steady_console_error e x : steady (vars:=vars) (console_error e x).
Proof. intros s r s' [= <- <-]. by apply grows_same_arrays. Qed.

Lemma steady_get_vars : steady (vars:=vars) get_vars.
Proof. intros s r s' [= <- <-]. apply grows_refl. Qed.

Lemma steady_set_vars v : steady (vars:=vars) (set_vars v).
Proof. intros s r s' [= <- <-]. by apply grows_same_arrays. Qed.

Lemma steady_clear e : steady (vars:=vars) (clear e).
Proof. intros s r s' [= <- <-]. by apply grows_same_arrays. Qed.

Lemma steady_on e cb : steady (vars:=vars) (on e cb).
Proof.
  unfold on. apply steady_bind; [apply steady_lookup_event|]. intros r.
  apply steady_bind.
  { destruct r; [apply steady_ret|].
    apply steady_bind; [apply steady_new_array | intros; apply steady_bind_event]. }
  intros _. apply steady_bind; [apply steady_lookup_event|]. intros r'.
  apply steady_bind; [|intros; apply steady_ret].
  destruct r'; [apply steady_push | apply steady_throw].
Qed.

Lemma steady_off e cb : steady (vars:=vars) (off e cb).
Proof.
  unfold off. apply steady_bind; [apply steady_lookup_event|]. intros [a|].
  - apply steady_bind; [apply steady_read_array|]. intros l.
    apply steady_bind; [apply steady_new_array | intros; apply steady_bind_event].
  - apply steady_ret.
Qed.

Lemma steady_once e f : steady (vars:=vars) (once e f).
Proof.
  unfold once. apply steady_bind; [apply steady_new_wrapper|]. intros n.
  apply steady_bind; [apply steady_on | intros; apply steady_ret].
Qed.

Lemma finishes_bind {A B} (m : M A) (k : A → M B) :
  finishes m → (∀ a, finishes (k a)) → finishes (bind m k).
Proof.
  intros Hm Hk s. unfold bind. specialize (Hm s).
  destruct (m s) as [[a|x|] s1]; simpl in *; [apply Hk|done|done].
Qed.

Lemma finishes_on e cb : finishes (vars:=vars) (on e cb).
Proof.
  intros s. unfold on. run_m. destruct (events s !! e) eqn:E; simpl.
  - by rewrite E.
  - by rewrite lookup_insert_eq.
Qed.

Lemma finishes_off e cb : finishes (vars:=vars) (off e cb).
Proof. intros s. unfold off. run_m. by destruct (events s !! e). Qed.

Lemma finishes_once e f : finishes (vars:=vars) (once e f).
Proof.
  unfold once. apply finishes_bind; [done|]. intros n.
  apply finishes_bind; [apply finishes_on | done].
Qed.

Section Nested.
Variable emit' : string → data → M (list callback).
Hypothesis steady_emit' : ∀ e d, steady (emit' e d).

Lemma steady_run sc : steady (run emit' sc).
Proof.
  induction sc as [|x|e f k IH|e f k IH|e f k IH|e d k IH|e k IH|k IH|v k IH];
    simpl.
  - apply steady_ret.
  - apply steady_throw.
  - apply steady_bind; [apply steady_on | done].
  - apply steady_bind; [apply steady_once | done].
  - apply steady_bind; [apply steady_off | done].
  - apply steady_bind; [apply steady_emit' | done].
  - apply steady_bind; [apply steady_clear | done].
  - apply steady_bind; [apply steady_get_vars | done].
  - apply steady_bind; [apply steady_set_vars | done].
Qed.

Lemma steady_call cb d : steady (call behaviour emit' cb d).
Proof.
  destruct cb as [f|n e f]; simpl; [apply steady_run|].
  apply steady_bind; [apply steady_run | intros; apply steady_off].
Qed.

Lemma steady_forEach e a d n : ∀ i, steady (forEach behaviour emit' e a d i n).
Proof.
  induction n as [|n IH]; intros i; simpl; [apply steady_ret|].
  apply steady_bind; [apply steady_read_array|]. intros l.
  destruct (l !! i) as [cb|]; [|apply IH].
  apply steady_bind.
  { apply steady_try_catch; [apply steady_call | apply steady_console_error]. }
  intros _. apply steady_bind; [apply IH | intros; apply steady_ret].
Qed.

(** A delivery pass neither throws nor skips: it calls the elements the
    array had when the pass started, whatever the listeners do meanwhile. *)
Lemma forEach_visits e a d (ls : list callback) n :
  ∀ i s more,
    arrays s !! a = Some (ls ++ more) →
    i + n = length ls →
    match forEach behaviour emit' e a d i n s with
    | (Normal inv, _) => inv = drop i ls
    | (Thrown _, _) => False
    | (Diverged, _) => True
    end.
Proof.
  induction n as [|n IH]; intros i s more Ha Hlen; simpl.
  - unfold ret. rewrite drop_ge by lia. done.
  - unfold bind at 1. unfold read_array at 1. rewrite Ha. simpl.
    assert (Hi : ls !! i = Some (default (Fn 0) (ls !! i))).
    { destruct (ls !! i) eqn:E; [done|]. apply lookup_ge_None in E. lia. }
    set (cb := default (Fn 0) (ls !! i)) in *.
    rewrite (lookup_app_l_Some _ _ _ _ Hi).
    unfold bind at 1.
    destruct (try_catch (call behaviour emit' cb d)
                (λ error, console_error e error) s) as [r1 s1] eqn:E1.
    assert (Hg : grows s s1).
    { eapply (steady_try_catch (call behaviour emit' cb d)); [| |exact E1].
      - apply steady_call.
      - intros x. apply steady_console_error. }
    destruct (Hg _ _ Ha) as [more' Ha1]. rewrite <- app_assoc in Ha1.
    destruct r1 as [[]|x|].
    + unfold bind. specialize (IH (S i) s1 _ Ha1 ltac:(lia)).
      destruct (forEach behaviour emit' e a d (S i) n s1) as [[inv|x|] s2];
        [|done|done].
      unfold ret. rewrite IH. symmetry. by apply drop_S.
    + unfold try_catch in E1.
      destruct (call behaviour emit' cb d s) as [[[]|y|] s0]; done.
    + done.
Qed.

Lemma finishes_run sc : emit_free sc → finishes (run emit' sc).
Proof.
  induction sc as [|x|e f k IH|e f k IH|e f k IH|e d k IH|e k IH|k IH|v k IH];
    simpl; intros Hfree; try done.
  - apply finishes_bind; [apply finishes_on | auto].
  - apply finishes_bind; [apply finishes_once | auto].
  - apply finishes_bind; [apply finishes_off | auto].
  - apply finishes_bind; [done | auto].
  - apply finishes_bind; [done | auto].
  - apply finishes_bind; [done | auto].
Qed.

Lemma finishes_call cb d :
  emit_free (behaviour (fn_of cb) d) → finishes (call behaviour emit' cb d).
Proof.
  destruct cb as [f|n e f]; simpl; intros Hfree; [by apply finishes_run|].
  apply finishes_bind; [by apply finishes_run | intros; apply finishes_off].
Qed.

Lemma forEach_finishes e a d (ls : list callback) n :
  Forall (λ cb, emit_free (behaviour (fn_of cb) d)) ls →
  ∀ i s more,
    arrays s !! a = Some (ls ++ more) →
    i + n = length ls →
    (forEach behaviour emit' e a d i n s).1 ≠ Diverged.
Proof.
  intros Hfree. induction n as [|n IH]; intros i s more Ha Hlen; simpl; [done|].
  unfold bind at 1. unfold read_array at 1. rewrite Ha. simpl.
  destruct (ls !! i) as [cb|] eqn:Hi;
    [|apply lookup_ge_None in Hi; lia].
  rewrite (lookup_app_l_Some _ _ _ _ Hi).
  unfold bind at 1.
  destruct (try_catch (call behaviour emit' cb d)
              (λ error, console_error e error) s) as [r1 s1] eqn:E1.
  assert (Hg : grows s s1).
  { eapply (steady_try_catch (call behaviour emit' cb d)); [| |exact E1].
    - apply steady_call.
    - intros x. apply steady_console_error. }
  destruct (Hg _ _ Ha) as [more' Ha1]. rewrite <- app_assoc in Ha1.
  assert (Hcb : emit_free (behaviour (fn_of cb) d)).
  { rewrite Forall_forall in Hfree. apply Hfree. by eapply list_elem_of_lookup_2. }
  pose proof (finishes_call cb d Hcb s) as Hfin.
  unfold try_catch in E1.
  destruct (call behaviour emit' cb d s) as [[[]|y|] s0]; simpl in *;
    try done; injection E1 as <- <-.
  - unfold bind. specialize (IH (S i) s0 _ Ha1 ltac:(lia)).
    destruct (forEach behaviour emit' e a d (S i) n s0) as [[inv|x|] s2]; done.
  - unfold bind. specialize (IH (S i) _ _ Ha1 ltac:(lia)).
    destruct (forEach behaviour emit' e a d (S i) n _) as [[inv|x|] s2]; done.
Qed.
End Nested.

Lemma steady_emit fuel : ∀ e d, steady (emit behaviour fuel e d).
Proof.
  induction fuel as [|fuel IH]; intros e d; simpl; [apply steady_diverge|].
  apply steady_bind; [apply steady_lookup_event|]. intros [a|].
  - apply steady_bind; [apply steady_read_array|]. intros l.
    by apply steady_forEach.
  - apply steady_ret.
Qed.


(** [emit] never throws, and what it calls is what was subscribed when it
    started. *)
Lemma emit_visits fuel e d (s : bus) ls :
  subscribed e s = Some ls →
  match emit behaviour fuel e d s with
  | (Normal inv, _) => inv = ls
  | (Thrown _, _) => False
  | (Diverged, _) => True
  end.
Proof.
  unfold subscribed. intros Hsub.
  destruct (events s !! e) as [a|] eqn:Ea; [|done]. simpl in Hsub.
  destruct fuel as [|fuel]; simpl; [done|].
  unfold bind at 1, lookup_event at 1. rewrite Ea.
  unfold bind at 1, read_array at 1. rewrite Hsub. simpl.
  pose proof (forEach_visits (emit behaviour fuel) (steady_emit fuel)
                e a d ls (length ls) 0 s []) as H.
  rewrite app_nil_r in H. specialize (H Hsub eq_refl).
  by rewrite drop_0 in H.
Qed.


(** With listeners that do not publish themselves, one level of [emit]
    is enough for the call to come back. *)
Lemma emit_finishes fuel e d (s : bus) ls :
  subscribed e s = Some ls →
  Forall (λ cb, emit_free (behaviour (fn_of cb) d)) ls →
  fuel ≠ 0 →
  ∃ s', emit behaviour fuel e d s = (Normal ls, s').
Proof.
  intros Hsub Hfree Hfuel.
  pose proof (emit_visits fuel e d s ls Hsub) as Hv.
  assert (Hfin : (emit behaviour fuel e d s).1 ≠ Diverged).
  { unfold subscribed in Hsub.
    destruct (events s !! e) as [a|] eqn:Ea; [|done]. simpl in Hsub.
    destruct fuel as [|fuel]; [done|]. simpl.
    unfold bind at 1, lookup_event at 1. rewrite Ea.
    unfold bind at 1, read_array at 1. rewrite Hsub. simpl.
    eapply (forEach_finishes (emit behaviour fuel) (steady_emit fuel)
              e a d ls (length ls) Hfree 0 s []); [|done].
    by rewrite app_nil_r. }
  destruct (emit behaviour fuel e d s) as [[inv|x|] s']; simpl in *; try done.
  subst inv. by exists s'.
Qed.


(** ** [off] while a delivery pass is running *)


Lemma off_subscribed e cb (s : bus) l :
  subscribed e s = Some l →
  ∃ s', off e cb s = (Normal tt, s') ∧
        subscribed e s' = Some (filter (λ c, c ≠ cb) l).
Proof.
  unfold subscribed. intros Hsub.
  destruct (events s !! e) as [a|] eqn:Ea; [|done]. simpl in Hsub.
  unfold off. run_m. rewrite Ea, Hsub. simpl.
  eexists. split; [done|]. simpl.
  rewrite lookup_insert_eq. simpl.
  by rewrite lookup_app_r, Nat.sub_diag.
Qed.

Section Unsubscribing.
Variable emit' : string → data → M (list callback).
Hypothesis steady_emit' : ∀ e d, steady (emit' e d).
Variables (e : string) (g : nat) (d : data) (ls : list callback).

Local Abbreviation unsubscribed := (unsubscribed_from e g ls).
Local Abbreviation untouched_or_unsubscribed :=
  (untouched_or_unsubscribed_from e g ls).




End Unsubscribing.




(** ** [on] and [once] *)

Lemma on_subscribed e cb (s : bus) :
  events s !! e = None ∨ is_Some (subscribed e s) →
  ∃ s', on e cb s = (Normal (e, cb), s') ∧
        subscribed e s' = Some (default [] (subscribed e s) ++ [cb]) ∧
        wrappers s' = wrappers s.
Proof.
  unfold subscribed, on. run_m. intros [Ev|[l Hl]].
  - rewrite Ev. simpl. rewrite lookup_insert_eq. simpl.
    eexists. split; [done|]. simpl. rewrite lookup_insert_eq. simpl.
    split; [|done].
    rewrite list_lookup_alter_eq, lookup_app_r, Nat.sub_diag; done.
  - destruct (events s !! e) as [a|] eqn:Ea; [|done]. simpl in *.
    rewrite Ea. eexists. split; [done|]. simpl. rewrite Ea. simpl.
    by rewrite list_lookup_alter_eq, Hl.
Qed.

Lemma once_subscribed e f (s : bus) :
  events s !! e = None ∨ is_Some (subscribed e s) →
  ∃ s', once e f s = (Normal tt, s') ∧
        subscribed e s' =
          Some (default [] (subscribed e s) ++ [Wrapped (wrappers s) e f]).
Proof.
  intros Hs. unfold once, bind at 1, new_wrapper.
  set (s0 := Bus _ _ _ _ _).
  destruct (on_subscribed e (Wrapped (wrappers s) e f) s0) as (s' & E & H & _).
  { done. }
  exists s'. unfold bind. rewrite E. done.
Qed.


Lemma emit_unfold fuel e d (s : bus) a l :
  events s !! e = Some a → arrays s !! a = Some l →
  emit behaviour (S fuel) e d s
  = forEach behaviour (emit behaviour fuel) e a d 0 (length l) s.
Proof.
  intros Ea Hl. simpl. unfold bind at 1, lookup_event at 1. rewrite Ea.
  unfold bind at 1, read_array at 1. by rewrite Hl.
Qed.

(** One delivery to a single closure of [once] whose function throws: the
    throw skips the closure's [off], so only the console changes. *)
Lemma emit_once_throwing fuel e d f n x (s : bus) :
  behaviour f d = Throw x →
  subscribed e s = Some [Wrapped n e f] →
  emit behaviour (S fuel) e d s
  = (Normal [Wrapped n e f],
     Bus (events s) (arrays s) (wrappers s) (console s ++ [(e, x)])
         (closure_vars s)).
Proof.
  intros Hf Hsub. unfold subscribed in Hsub.
  destruct (events s !! e) as [a|] eqn:Ea; [|done]. simpl in Hsub.
  rewrite (emit_unfold _ _ _ _ _ _ Ea Hsub). simpl.
  unfold bind at 1, read_array at 1. rewrite Hsub. simpl.
  unfold bind at 1, try_catch, bind at 1. rewrite Hf. simpl.
  by unfold throw, console_error, bind, ret.
Qed.

(** The same when the function returns: the closure's [off] runs. *)
Lemma emit_once_returning fuel e d f n (s : bus) :
  behaviour f d = Return →
  subscribed e s = Some [Wrapped n e f] →
  ∃ s', emit behaviour (S fuel) e d s = (Normal [Wrapped n e f], s') ∧
        subscribed e s' = Some [].
Proof.
  intros Hf Hsub.
  destruct (off_subscribed e (Wrapped n e f) s _ Hsub) as (s' & Eoff & Hs').
  unfold subscribed in Hsub.
  destruct (events s !! e) as [a|] eqn:Ea; [|done]. simpl in Hsub.
  rewrite (emit_unfold _ _ _ _ _ _ Ea Hsub). simpl.
  unfold bind at 1, read_array at 1. rewrite Hsub. simpl.
  unfold bind at 1, try_catch, bind at 1. rewrite Hf. simpl.
  unfold ret at 1. rewrite Eoff. unfold bind, ret. exists s'. split; [done|].
  rewrite Hs'. rewrite filter_cons. by destruct (decide _).
Qed.

Lemma forEach_deliveries fuel e a d (ls : list callback) n :
  ∀ i (s : bus) more,
    arrays s !! a = Some (ls ++ more) →
    i + n = length ls →
    forEach behaviour (emit behaviour fuel) e a d i n s
    = deliveries behaviour (emit behaviour fuel) e d (drop i ls) s.
Proof.
  induction n as [|n IH]; intros i s more Ha Hlen; simpl.
  - by rewrite drop_ge by lia.
  - destruct (ls !! i) as [cb|] eqn:Hi; [|apply lookup_ge_None in Hi; lia].
    rewrite (drop_S _ _ _ Hi). simpl.
    unfold bind at 1, read_array at 1. rewrite Ha. simpl.
    rewrite (lookup_app_l_Some _ _ _ _ Hi).
    change (call behaviour (emit behaviour fuel) cb d)
      with (listener_body behaviour (emit behaviour fuel) d cb).
    unfold bind at 1, try_catch.
    destruct (listener_body behaviour (emit behaviour fuel) d cb s)
      as [r1 s1] eqn:E1.
    assert (Hg : grows s s1).
    { eapply (steady_call (emit behaviour fuel) (steady_emit fuel) cb d).
      exact E1. }
    destruct (Hg _ _ Ha) as [more' Ha1]. rewrite <- app_assoc in Ha1.
    destruct r1 as [[]|x|]; [| |done].
    + unfold bind. rewrite (IH (S i) s1 _ Ha1 ltac:(lia)).
      by destruct (deliveries _ _ _ _ _ s1) as [[called|y|] s2].
    + unfold console_error, bind.
      fold (with_console (console s1 ++ [(e, x)]) s1).
      rewrite (IH (S i) (with_console (console s1 ++ [(e, x)]) s1) _ Ha1
                 ltac:(lia)).
      by destruct (deliveries _ _ _ _ _ _) as [[called|y|] s2].
Qed.

(** C1.  A single [emit] on a name with listeners [ls], subscribed in that
    order, never ends in a throw, whatever the listeners do (throw
    included); when it comes back, the callbacks it has called are exactly
    [ls], each once and in subscription order.  Its result and the state it
    leaves are those of running the listeners of [ls] one after the other,
    each from the state the one before left: the body of each listener is
    run, a throw is caught and leaves one line on the console, and the
    listeners after it are run all the same.  And [emit] does come back as
    soon as the listeners of that name do not publish themselves. *)
Theorem emit_isolates_listener_faults fuel e d (s : bus) ls :
  subscribed e s = Some ls →
  (∀ x s', emit behaviour fuel e d s ≠ (Thrown x, s')) ∧
  (∀ called s', emit behaviour fuel e d s = (Normal called, s') → called = ls) ∧
  emit behaviour (S fuel) e d s
  = deliveries behaviour (emit behaviour fuel) e d ls s ∧
  (Forall (λ cb, emit_free (behaviour (fn_of cb) d)) ls → fuel ≠ 0 →
   ∃ s', emit behaviour fuel e d s = (Normal ls, s')).
Proof.
  intros Hsub. pose proof (emit_visits fuel e d s ls Hsub) as Hv.
  split; [|split; [|split]].
  - intros x s' E. by rewrite E in Hv.
  - intros called s' E. by rewrite E in Hv.
  - unfold subscribed in Hsub.
    destruct (events s !! e) as [a|] eqn:Ea; [|done]. simpl in Hsub.
    rewrite (emit_unfold _ _ _ _ _ _ Ea Hsub).
    rewrite (forEach_deliveries fuel e a d ls (length ls) 0 s []);
      [by rewrite drop_0|by rewrite app_nil_r|done].
  - intros Hfree Hfuel. by apply emit_finishes.
Qed.


(** C5 (on the code).  A function registered with [once] that throws when
    it is called is called by the first publish and, its closure still
    being subscribed, by the next publish as well. *)
Theorem once_listener_that_throws_fires_again fuel e d f x (s : bus) :
  behaviour f d = Throw x →
  events s !! e = None →
  ∃ s1 s2 s3,
    once e f s = (Normal tt, s1) ∧
    emit behaviour (S fuel) e d s1 = (Normal [Wrapped (wrappers s) e f], s2) ∧
    subscribed e s2 = Some [Wrapped (wrappers s) e f] ∧
    emit behaviour (S fuel) e d s2 = (Normal [Wrapped (wrappers s) e f], s3).
Proof.
  intros Hf Ev.
  destruct (once_subscribed e f s (or_introl Ev)) as (s1 & E1 & H1).
  assert (Hnone : subscribed e s = None) by (unfold subscribed; by rewrite Ev).
  rewrite Hnone in H1. simpl in H1.
  eexists s1, _, _. split; [done|].
  split; [by apply emit_once_throwing|].
  split; [done|].
  by apply emit_once_throwing.
Qed.

(** X8.  A function registered with [once] that returns is called by the
    first publish and, its closure having unsubscribed itself, by no later
    one. *)
Lemma once_listener_that_returns_fires_once fuel e d f (s : bus) :
  own_name e →
  behaviour f d = Return →
  events s !! e = None →
  ∃ s1 s2 s3,
    once e f s = (Normal tt, s1) ∧
    emit behaviour (S fuel) e d s1 = (Normal [Wrapped (wrappers s) e f], s2) ∧
    emit behaviour (S fuel) e d s2 = (Normal [], s3).
Proof.
  intros _ Hf Ev.
  destruct (once_subscribed e f s (or_introl Ev)) as (s1 & E1 & H1).
  assert (Hnone : subscribed e s = None) by (unfold subscribed; by rewrite Ev).
  rewrite Hnone in H1. simpl in H1.
  destruct (emit_once_returning fuel e d f _ s1 Hf H1) as (s2 & E2 & H2).
  destruct (emit_finishes (S fuel) e d s2 [] H2) as [s3 E3]; [done..|].
  by exists s1, s2, s3.
Qed.


(** ** Well-formed buses *)

Lemma keeps_ret {A} (P : bus → Prop) (a : A) : keeps P (ret a).
Proof. by intros s r s' H [= <- <-]. Qed.

Lemma keeps_bind {A B} (P : bus → Prop) (m : M A) (k : A → M B) :
  keeps P m → (∀ a, keeps P (k a)) → keeps P (bind m k).
Proof.
  intros Hm Hk s r s' Hs H. unfold bind in H.
  destruct (m s) as [[a|x|] s1] eqn:E.
  - eapply Hk; [|exact H]. by eapply Hm.
  - injection H as <- <-. by eapply Hm.
  - injection H as <- <-. by eapply Hm.
Qed.

Lemma keeps_try_catch {A} (P : bus → Prop) (m : M A) (h : exn → M A) :
  keeps P m → (∀ x, keeps P (h x)) → keeps P (try_catch m h).
Proof.
  intros Hm Hh s r s' Hs H. unfold try_catch in H.
  destruct (m s) as [[a|x|] s1] eqn:E.
  - injection H as <- <-. by eapply Hm.
  - eapply Hh; [|exact H]. by eapply Hm.
  - injection H as <- <-. by eapply Hm.
Qed.

Lemma well_formed_new_binding e l (s : bus) :
  well_formed s →
  well_formed (Bus (<[e := length (arrays s)]> (events s)) (arrays s ++ [l])
                   (wrappers s) (console s) (closure_vars s)).
Proof.
  intros [Hin Hinj]. split; simpl.
  - intros e' a. rewrite length_app. simpl.
    destruct (decide (e = e')) as [->|Hne].
    + rewrite lookup_insert_eq. intros [= <-]. lia.
    + rewrite lookup_insert_ne by done. intros H. apply Hin in H. lia.
  - intros e1 e2 a.
    destruct (decide (e = e1)) as [E1|H1], (decide (e = e2)) as [E2|H2].
    + congruence.
    + subst e1. rewrite lookup_insert_eq, lookup_insert_ne by done.
      intros [= <-] H. apply Hin in H. lia.
    + subst e2. rewrite lookup_insert_eq, lookup_insert_ne by done.
      intros H [= <-]. apply Hin in H. lia.
    + rewrite !lookup_insert_ne by done. apply Hinj.
Qed.

Lemma well_formed_push a cb (s : bus) :
  well_formed s →
  well_formed (Bus (events s) (alter (λ l, l ++ [cb]) a (arrays s))
                   (wrappers s) (console s) (closure_vars s)).
Proof.
  intros [Hin Hinj]. split; simpl; [|done].
  intros e' a'. rewrite length_alter. apply Hin.
Qed.

Lemma keeps_well_formed_on e cb : keeps (vars:=vars) well_formed (on e cb).
Proof.
  intros s r s' Hs. unfold on. run_m.
  destruct (events s !! e) as [a|] eqn:Ea; simpl.
  - rewrite Ea. intros [= <- <-]. by apply well_formed_push.
  - rewrite lookup_insert_eq. intros [= <- <-].
    by apply (well_formed_push _ _ (Bus _ _ _ _ _)), well_formed_new_binding.
Qed.

Lemma keeps_well_formed_off e cb : keeps (vars:=vars) well_formed (off e cb).
Proof.
  intros s r s' Hs. unfold off. run_m.
  destruct (events s !! e) as [a|] eqn:Ea; simpl; intros [= <- <-]; [|done].
  by apply well_formed_new_binding.
Qed.

Lemma keeps_well_formed_once e f : keeps (vars:=vars) well_formed (once e f).
Proof.
  unfold once. apply keeps_bind.
  { by intros s r s' [Hin Hinj] [= <- <-]. }
  intros n. apply keeps_bind; [apply keeps_well_formed_on|].
  intros; apply keeps_ret.
Qed.

Lemma keeps_well_formed_clear e : keeps (vars:=vars) well_formed (clear e).
Proof.
  intros s r s' [Hin Hinj] [= <- <-]. split; simpl.
  - intros e' a H. destruct e as [e|]; [|done].
    destruct (decide (e = ""%string)); [done|].
    apply lookup_delete_Some in H as [_ H]. by eapply Hin.
  - intros e1 e2 a H1 H2. destruct e as [e|]; [|done].
    destruct (decide (e = ""%string)); [done|].
    apply lookup_delete_Some in H1 as [_ H1].
    apply lookup_delete_Some in H2 as [_ H2]. by eapply Hinj.
Qed.

Section NestedWellFormed.
Variable emit' : string → data → M (list callback).
Hypothesis keeps_emit' : ∀ e d, keeps well_formed (emit' e d).

Lemma keeps_well_formed_run sc : keeps well_formed (run emit' sc).
Proof.
  induction sc as [|x|e f k IH|e f k IH|e f k IH|e d k IH|e k IH|k IH|v k IH];
    simpl.
  - apply keeps_ret.
  - by intros s r s' H [= <- <-].
  - apply keeps_bind; [apply keeps_well_formed_on | done].
  - apply keeps_bind; [apply keeps_well_formed_once | done].
  - apply keeps_bind; [apply keeps_well_formed_off | done].
  - apply keeps_bind; [apply keeps_emit' | done].
  - apply keeps_bind; [apply keeps_well_formed_clear | done].
  - apply keeps_bind; [by intros s r s' H [= <- <-] | done].
  - apply keeps_bind; [by intros s r s' [??] [= <- <-] | done].
Qed.

Lemma keeps_well_formed_forEach e a d n :
  ∀ i, keeps well_formed (forEach behaviour emit' e a d i n).
Proof.
  induction n as [|n IH]; intros i; simpl; [apply keeps_ret|].
  apply keeps_bind; [by intros s r s' H [= <- <-]|]. intros l.
  destruct (l !! i) as [cb|]; [|apply IH].
  apply keeps_bind.
  { apply keeps_try_catch.
    - destruct cb as [f|m e' f]; simpl; [apply keeps_well_formed_run|].
      apply keeps_bind; [apply keeps_well_formed_run|].
      intros; apply keeps_well_formed_off.
    - by intros x s r s' [??] [= <- <-]. }
  intros _. apply keeps_bind; [apply IH | intros; apply keeps_ret].
Qed.
End NestedWellFormed.

Lemma keeps_well_formed_emit fuel :
  ∀ e d, keeps well_formed (emit behaviour fuel e d).
Proof.
  induction fuel as [|fuel IH]; intros e d; simpl.
  - by intros s r s' H [= <- <-].
  - apply keeps_bind; [by intros s r s' H [= <- <-]|]. intros [a|].
    + apply keeps_bind; [by intros s r s' H [= <- <-]|]. intros l.
      by apply keeps_well_formed_forEach.
    + apply keeps_ret.
Qed.

Lemma well_formed_new (v : vars) : well_formed (new v).
Proof.
  split; simpl.
  - intros e a. by rewrite lookup_empty.
  - intros e1 e2 a. by rewrite lookup_empty.
Qed.

Lemma well_formed_after_on e cb (s : bus) :
  well_formed s → well_formed (on e cb s).2.
Proof.
  intros Hs. destruct (on e cb s) as [r s'] eqn:E.
  by apply (keeps_well_formed_on e cb s r s').
Qed.

(** X1.  A new bus is well formed, and every method keeps a bus well
    formed, [emit] included whatever the listeners do: each name stays bound
    to an array of its own. *)
Theorem bus_stays_well_formed :
  (∀ v : vars, well_formed (new v)) ∧
  (∀ (s : bus), well_formed s →
     (∀ e cb, well_formed (on e cb s).2) ∧
     (∀ e cb, well_formed (off e cb s).2) ∧
     (∀ e f, well_formed (once e f s).2) ∧
     (∀ e, well_formed (clear e s).2) ∧
     (∀ fuel e d, well_formed (emit behaviour fuel e d s).2)).
Proof.
  split.
  - intros v. split; simpl.
    + intros e a. by rewrite lookup_empty.
    + intros e1 e2 a. by rewrite lookup_empty.
  - intros s Hs. split; [|split; [|split; [|split]]].
    + intros e cb. destruct (on e cb s) as [r s'] eqn:E.
      by apply (keeps_well_formed_on e cb s r s').
    + intros e cb. destruct (off e cb s) as [r s'] eqn:E.
      by apply (keeps_well_formed_off e cb s r s').
    + intros e f. destruct (once e f s) as [r s'] eqn:E.
      by apply (keeps_well_formed_once e f s r s').
    + intros e. destruct (clear e s) as [r s'] eqn:E.
      by apply (keeps_well_formed_clear e s r s').
    + intros fuel e d. destruct (emit behaviour fuel e d s) as [r s'] eqn:E.
      by apply (keeps_well_formed_emit fuel e d s r s').
Qed.


(** ** What [on], [off] and [clear] do to the listeners of each name *)

Lemma subscribed_Some_events e (s : bus) l :
  subscribed e s = Some l → ∃ a, events s !! e = Some a ∧ arrays s !! a = Some l.
Proof.
  unfold subscribed. destruct (events s !! e) as [a|]; [|done].
  simpl. eauto.
Qed.

Lemma well_formed_subscribed e a (s : bus) :
  well_formed s → events s !! e = Some a → is_Some (subscribed e s).
Proof.
  intros [Hin _] Ea. unfold subscribed. rewrite Ea. simpl.
  apply lookup_lt_is_Some. by eapply Hin.
Qed.

Lemma on_effect e cb (s : bus) :
  well_formed s →
  ∃ s', on e cb s = (Normal (e, cb), s') ∧
        subscribed e s' = Some (default [] (subscribed e s) ++ [cb]) ∧
        (∀ e', e' ≠ e → subscribed e' s' = subscribed e' s).
Proof.
  intros Hwf. pose proof Hwf as [Hin Hinj].
  unfold on. run_m.
  destruct (events s !! e) as [a|] eqn:Ea; simpl.
  - rewrite Ea. eexists. split; [done|].
    destruct (well_formed_subscribed e a s Hwf Ea) as [l Hl].
    rewrite Hl. apply subscribed_Some_events in Hl as (a' & Ea' & Hl).
    assert (a' = a) by congruence. subst a'.
    unfold subscribed. simpl. rewrite Ea. simpl.
    split; [by rewrite list_lookup_alter_eq, Hl|].
    intros e' Hne. destruct (events s !! e') as [b|] eqn:Eb; [|done]. simpl.
    rewrite list_lookup_alter_ne; [done|].
    intros Hab. subst b. by apply Hne, (Hinj e' e a).
  - rewrite lookup_insert_eq. eexists. split; [done|].
    unfold subscribed at 2. rewrite Ea. simpl.
    unfold subscribed. simpl. rewrite lookup_insert_eq. simpl.
    split; [by rewrite list_lookup_alter_eq, lookup_app_r, Nat.sub_diag|].
    intros e' Hne. rewrite lookup_insert_ne by done.
    destruct (events s !! e') as [b|] eqn:Eb; [|done]. simpl.
    apply Hin in Eb.
    rewrite list_lookup_alter_ne by lia. by rewrite lookup_app_l.
Qed.

Lemma off_effect e cb (s : bus) :
  well_formed s →
  ∃ s', off e cb s = (Normal tt, s') ∧
        subscribed e s' = filter (λ c, c ≠ cb) <$> subscribed e s ∧
        (∀ e', e' ≠ e → subscribed e' s' = subscribed e' s) ∧
        (events s !! e = None → s' = s).
Proof.
  intros Hwf. pose proof Hwf as [Hin Hinj].
  destruct (events s !! e) as [a|] eqn:Ea.
  - destruct (well_formed_subscribed e a s Hwf Ea) as [l Hl].
    destruct (off_subscribed e cb s l Hl) as (s' & E & Hs').
    exists s'. split; [done|]. rewrite Hl. split; [done|].
    split; [|done].
    intros e' Hne. unfold off in E. run_m. rewrite Ea in E.
    injection E as <-. unfold subscribed. simpl.
    rewrite lookup_insert_ne by done.
    destruct (events s !! e') as [b|] eqn:Eb; [|done]. simpl.
    apply Hin in Eb. by rewrite lookup_app_l.
  - exists s. unfold off. run_m. rewrite Ea. simpl.
    split; [done|]. unfold subscribed. rewrite Ea. done.
Qed.

Lemma filter_absent (cb : callback) (l : list callback) :
  cb ∉ l → filter (λ c, c ≠ cb) l = l.
Proof.
  induction l as [|c l IH]; [done|]. intros Hnot.
  apply not_elem_of_cons in Hnot as [Hc Hl].
  rewrite filter_cons. destruct (decide (c ≠ cb)); [|done].
  by rewrite IH.
Qed.

Lemma filter_removes (cb : callback) (l : list callback) :
  cb ∉ filter (λ c, c ≠ cb) l.
Proof. intros H. by apply list_elem_of_filter in H as [H _]. Qed.


(** X3.  [off] removes every subscription of the callback from the name,
    keeps the other listeners of the name in their order and leaves the
    other names alone; on a name that was never subscribed it changes
    nothing at all.  The next [emit] of the name does not call the
    callback. *)
Theorem off_removes_every_subscription fuel e d cb (s : bus) :
  own_name e →
  well_formed s →
  ∃ s', off e cb s = (Normal tt, s') ∧
        subscribed e s' = filter (λ c, c ≠ cb) <$> subscribed e s ∧
        (∀ e', e' ≠ e → subscribed e' s' = subscribed e' s) ∧
        (events s !! e = None → s' = s) ∧
        (∀ called s'', emit behaviour fuel e d s' = (Normal called, s'') →
                       cb ∉ called).
Proof.
  intros _ Hwf. destruct (off_effect e cb s Hwf) as (s' & E & He & Ho & Hn).
  exists s'. repeat split; [done..|].
  intros called s'' Hemit.
  destruct (subscribed e s) as [l|] eqn:Hl; simpl in He.
  - pose proof (emit_visits fuel e d s' _ He) as Hv. rewrite Hemit in Hv.
    subst called. apply filter_removes.
  - destruct fuel as [|fuel]; [done|]. simpl in Hemit. run_m.
    unfold subscribed in He.
    destruct (events s' !! e) as [a|] eqn:Ea; simpl in *.
    + rewrite He in Hemit. simpl in Hemit. injection Hemit as <- _.
      apply not_elem_of_nil.
    + injection Hemit as <- _. apply not_elem_of_nil.
Qed.

(** X4.  Calling the function [on] returned undoes the subscription: when
    the callback was not subscribed to the name before, the name has the
    listeners it had, and the other names are as they were. *)
Theorem unsubscribe_undoes_on e cb (s : bus) :
  own_name e →
  well_formed s →
  cb ∉ default [] (subscribed e s) →
  ∃ h s1 s2,
    on e cb s = (Normal h, s1) ∧
    unsubscribe h s1 = (Normal tt, s2) ∧
    subscribed e s2 = Some (default [] (subscribed e s)) ∧
    (∀ e', e' ≠ e → subscribed e' s2 = subscribed e' s).
Proof.
  intros _ Hwf Hnot.
  destruct (on_effect e cb s Hwf) as (s1 & E1 & He1 & Ho1).
  assert (Hwf1 : well_formed s1) by by eapply keeps_well_formed_on.
  destruct (off_effect e cb s1 Hwf1) as (s2 & E2 & He2 & Ho2 & _).
  exists (e, cb), s1, s2. split; [done|]. split; [done|]. split.
  - rewrite He2, He1. simpl. f_equal.
    rewrite filter_app, filter_absent by done.
    rewrite filter_cons. destruct (decide (cb ≠ cb)); [done|].
    by rewrite app_nil_r.
  - intros e' Hne. by rewrite Ho2, Ho1.
Qed.

(** X5.  [clear(name)] leaves the name without listeners and the other
    names as they were; [clear()] and [clear('')] (the empty string is
    falsy) leave no name with listeners.  [emit] on a name without listeners
    (and not one every object inherits) calls nothing and leaves the bus as
    it is. *)
Theorem clear_removes_listeners (s : bus) :
  (∀ e, e ≠ ""%string →
        subscribed e (clear (Some e) s).2 = None ∧
        ∀ e', e' ≠ e → subscribed e' (clear (Some e) s).2 = subscribed e' s) ∧
  (∀ e', subscribed e' (clear None s).2 = None) ∧
  (∀ e', subscribed e' (clear (Some ""%string) s).2 = None) ∧
  (∀ fuel e d, own_name e → events s !! e = None →
               emit behaviour (S fuel) e d s = (Normal [], s)).
Proof.
  unfold clear, subscribed. simpl. split; [|split; [|split]].
  - intros e He. destruct (decide (e = ""%string)); [done|]. simpl.
    split; [by rewrite lookup_delete_eq|].
    intros e' Hne. by rewrite lookup_delete_ne.
  - intros e'. by rewrite lookup_empty.
  - intros e'. by rewrite lookup_empty.
  - intros fuel e d _ Ee. run_m. by rewrite Ee.
Qed.


(** ** [on] while a delivery pass is running *)

Section Subscribing.
Variable emit' : string → data → M (list callback).
Variables (e : string) (g : nat) (d : data) (a : nat).

Lemma run_subscribes_only n sc :
  subscribes_only e g n sc →
  ∀ (s : bus) l,
    events s !! e = Some a → arrays s !! a = Some l →
    ∃ r s', run emit' sc s = (r, s') ∧ r ≠ Diverged ∧
            events s' !! e = Some a ∧
            arrays s' !! a = Some (l ++ replicate n (Fn g)).
Proof.
  induction 1 as [|x|n k Hk IH]; intros s l Ea Hl; simpl.
  - exists (Normal tt), s. by rewrite app_nil_r.
  - exists (Thrown x), s. by rewrite app_nil_r.
  - unfold bind at 1. unfold on. run_m. rewrite Ea. simpl. rewrite Ea.
    set (s1 := Bus _ _ _ _ _).
    destruct (IH s1 (l ++ [Fn g]) Ea) as (r & s' & E & Hr & Ea' & Hl').
    { simpl. by rewrite list_lookup_alter_eq, Hl. }
    exists r, s'. rewrite E. split; [done|]. split; [done|]. split; [done|].
    rewrite Hl'. by rewrite <- app_assoc.
Qed.

Lemma forEach_subscribes_only (ls : list callback) steps :
  ∀ i (s : bus) k m,
    events s !! e = Some a →
    arrays s !! a = Some (ls ++ replicate k (Fn g)) →
    i + steps = length ls →
    listeners_subscribe behaviour e g d m (drop i ls) →
    ∃ s', forEach behaviour emit' e a d i steps s = (Normal (drop i ls), s') ∧
          events s' !! e = Some a ∧
          arrays s' !! a = Some (ls ++ replicate (k + m) (Fn g)).
Proof.
  induction steps as [|steps IH]; intros i s k m Ea Hl Hlen Hsub; simpl.
  - rewrite drop_ge in Hsub |- * by lia. inversion Hsub; subst.
    exists s. by rewrite Nat.add_0_r.
  - destruct (ls !! i) as [cb|] eqn:Hi; [|apply lookup_ge_None in Hi; lia].
    rewrite (drop_S _ _ _ Hi) in Hsub |- *.
    inversion Hsub as [|f n m' l' Hf Hrest]; subst.
    unfold bind at 1, read_array at 1. rewrite Hl. simpl.
    rewrite (lookup_app_l_Some _ _ _ _ Hi).
    destruct (run_subscribes_only n _ Hf s _ Ea Hl)
      as (r & s1 & E1 & Hr & Ea1 & Hl1).
    rewrite <- app_assoc, <- replicate_add in Hl1.
    unfold bind at 1, try_catch. simpl. rewrite E1.
    destruct r as [[]|x|]; [| |done].
    + destruct (IH (S i) s1 (k + n) m' Ea1 Hl1 ltac:(lia) Hrest)
        as (s' & E & Ea' & Hl').
      exists s'. unfold bind. rewrite E. unfold ret.
      by rewrite Nat.add_assoc.
    + unfold console_error.
      set (s2 := Bus _ _ _ _ _).
      destruct (IH (S i) s2 (k + n) m' Ea1 Hl1 ltac:(lia) Hrest)
        as (s' & E & Ea' & Hl').
      exists s'. unfold bind. rewrite E. unfold ret.
      by rewrite Nat.add_assoc.
Qed.
End Subscribing.

(** X6.  A listener subscribed to a name by the listeners of that name
    while they are being called is not called by the running pass, which
    calls the listeners it started with; it is called, after them, by the
    next one. *)
Theorem on_during_delivery_takes_effect_later fuel e d g n (s : bus) ls :
  subscribed e s = Some ls →
  listeners_subscribe behaviour e g d n ls →
  ∃ s', emit behaviour (S fuel) e d s = (Normal ls, s') ∧
        subscribed e s' = Some (ls ++ replicate n (Fn g)) ∧
        ∀ called s'',
          emit behaviour (S fuel) e d s' = (Normal called, s'') →
          called = ls ++ replicate n (Fn g).
Proof.
  intros Hsub Hls.
  destruct (subscribed_Some_events e s ls Hsub) as (a & Ea & Hl).
  destruct (forEach_subscribes_only (emit behaviour fuel) e g d a ls
              (length ls) 0 s 0 n Ea)
    as (s' & E & Ea' & Hl'); [by rewrite app_nil_r|done|by rewrite drop_0|].
  rewrite drop_0 in E. simpl in Hl'.
  assert (Hs' : subscribed e s' = Some (ls ++ replicate n (Fn g))).
  { unfold subscribed. by rewrite Ea'. }
  exists s'. split; [by rewrite (emit_unfold _ _ _ _ _ _ Ea Hl)|].
  split; [done|].
  intros called s'' Hemit.
  pose proof (emit_visits (S fuel) e d s' _ Hs') as Hv.
  by rewrite Hemit in Hv.
Qed.

(** ** Faults on the console *)

Lemma forEach_passive fuel e a d (ls : list callback) steps :
  Forall (passive_listener behaviour d) ls →
  ∀ i (s : bus),
    arrays s !! a = Some ls →
    i + steps = length ls →
    forEach behaviour (emit behaviour fuel) e a d i steps s
    = (Normal (drop i ls),
       with_console (console s ++ omap (fault_of behaviour e d) (drop i ls)) s).
Proof.
  intros Hall. induction steps as [|steps IH]; intros i s Hl Hlen; simpl.
  - rewrite drop_ge by lia. simpl. rewrite app_nil_r. by destruct s.
  - destruct (ls !! i) as [cb|] eqn:Hi; [|apply lookup_ge_None in Hi; lia].
    rewrite (drop_S _ _ _ Hi).
    unfold bind at 1, read_array at 1. rewrite Hl. simpl. rewrite Hi.
    assert (Hcb : passive_listener behaviour d cb).
    { rewrite Forall_forall in Hall. apply Hall.
      by eapply list_elem_of_lookup_2. }
    destruct cb as [f|]; [|done]. simpl in Hcb.
    unfold bind at 1, try_catch, fault_of. simpl.
    destruct Hcb as [Hf|[x Hf]]; rewrite Hf; simpl.
    + unfold ret at 1. unfold bind. rewrite (IH (S i) s Hl ltac:(lia)). done.
    + unfold throw, console_error.
      set (s1 := Bus _ _ _ _ _).
      unfold bind. rewrite (IH (S i) s1 Hl ltac:(lia)). unfold ret.
      unfold with_console. simpl. by rewrite <- app_assoc.
Qed.

(** X7.  When the listeners of a name are plain functions that return or
    throw at once, [emit] calls them all and changes nothing of the bus but
    the console, which gets one line per listener that threw, in call
    order. *)
Theorem emit_logs_each_fault fuel e d (s : bus) ls :
  subscribed e s = Some ls →
  Forall (passive_listener behaviour d) ls →
  emit behaviour (S fuel) e d s
  = (Normal ls, with_console (console s ++ omap (fault_of behaviour e d) ls) s).
Proof.
  intros Hsub Hall.
  destruct (subscribed_Some_events e s ls Hsub) as (a & Ea & Hl).
  rewrite (emit_unfold _ _ _ _ _ _ Ea Hl).
  rewrite (forEach_passive fuel e a d ls (length ls) Hall 0 s Hl eq_refl).
  by rewrite drop_0.
Qed.

End EventBusFacts.

(** ** The EventBus properties on a concrete bus *)

Lemma emit_isolates_listener_faults_witness :
  EventBus.subscribed "hit" RecordingScenario.three_recorders
  = Some [EventBus.Fn 0; EventBus.Fn 1; EventBus.Fn 2] ∧
  EventBus.emit RecordingScenario.behaviour 1 "hit" tt
    RecordingScenario.three_recorders
  = (EventBus.Normal [EventBus.Fn 0; EventBus.Fn 1; EventBus.Fn 2],
     EventBus.Bus
       (EventBus.events RecordingScenario.three_recorders)
       (EventBus.arrays RecordingScenario.three_recorders)
       0 [("hit"%string, "boom"%string)] [0; 1; 2]).
Proof.
  assert (Hsub : EventBus.subscribed "hit" RecordingScenario.three_recorders
                 = Some [EventBus.Fn 0; EventBus.Fn 1; EventBus.Fn 2])
    by (vm_compute; reflexivity).
  split; [exact Hsub|].
  destruct (emit_isolates_listener_faults RecordingScenario.behaviour
              0 "hit" tt RecordingScenario.three_recorders _ Hsub)
    as (_ & _ & Heq & _).
  rewrite Heq. vm_compute. reflexivity.
Defined.

(** On the bus of the four listeners the throw of function 1 ends up on
    the console, and functions 2 and 3 are called after it. *)
Lemma emit_logs_the_fault :
  let '(r, s') := EventBus.emit BusScenario.behaviour 1 "hit" tt
                    BusScenario.four_listeners in
  r = EventBus.Normal
        [EventBus.Fn 0; EventBus.Fn 1; EventBus.Fn 2; EventBus.Fn 3] ∧
  EventBus.console s' = [("hit"%string, "boom"%string)].
Proof. by vm_compute. Qed.


Lemma once_listener_that_throws_fires_again_witness :
  ∃ s1 s2 s3,
    EventBus.once "hit" 1 (EventBus.new tt) = (EventBus.Normal tt, s1) ∧
    EventBus.emit BusScenario.behaviour 1 "hit" tt s1
    = (EventBus.Normal [EventBus.Wrapped 0 "hit" 1], s2) ∧
    EventBus.subscribed "hit" s2 = Some [EventBus.Wrapped 0 "hit" 1] ∧
    EventBus.emit BusScenario.behaviour 1 "hit" tt s2
    = (EventBus.Normal [EventBus.Wrapped 0 "hit" 1], s3).
Proof.
  apply (once_listener_that_throws_fires_again BusScenario.behaviour
           0 "hit" tt 1 "boom" (EventBus.new tt)); reflexivity.
Defined.

(* ===================================================================== *)
(** * Properties of Character, CombatSystem and RPGEngine                 *)
(* ===================================================================== *)

Section GameFacts.
Import JS RPG.
Local Open Scope Q_scope.

Lemma le_true (a b : Q) : le a b = true ↔ a <= b.
Proof. apply Qle_bool_iff. Qed.

Lemma le_false (a b : Q) : le a b = false ↔ b < a.
Proof.
  unfold le. split.
  - intros H. apply Qnot_le_lt. intros Hle. apply Qle_bool_iff in Hle.
    congruence.
  - intros H. destruct (Qle_bool a b) eqn:E; [|done].
    apply Qle_bool_iff in E. lra.
Qed.

Lemma gt_true (a b : Q) : gt a b = true ↔ b < a.
Proof. unfold gt. rewrite negb_true_iff. apply le_false. Qed.

Lemma gt_false (a b : Q) : gt a b = false ↔ a <= b.
Proof. unfold gt. rewrite negb_false_iff. apply le_true. Qed.

(** C3.  [takeDamage(amount)] leaves health at max(0, health - amount) and
    returns it.  When that is 0, [isAlive] is false and one
    [character:died] carrying the character is published on the bus of the
    engine that owns the character (nothing is published when no engine
    does); otherwise [isAlive] is as before and nothing is published. *)
Theorem takeDamage_clamps_and_announces_death (amount : Q) (this : Character) :
  let '(returned, after, published) := takeDamage amount this in
  health after == Qmax 0 (health this - amount) ∧
  returned = health after ∧
  (health after == 0 →
   isAlive after = false ∧
   (∀ g, engine this = Some g →
         published = [{| bus_of := g; topic := "character:died";
                         payload := CharacterPayload after |}]) ∧
   (engine this = None → published = [])) ∧
  (¬ health after == 0 → isAlive after = isAlive this ∧ published = []).
Proof.
  unfold takeDamage. simpl.
  destruct (le (health this - amount) 0) eqn:E; simpl.
  - apply le_true in E. split; [by rewrite Q.max_l|]. split; [done|].
    split; [|by intros []].
    intros _. split; [done|]. unfold emit_if_engine. simpl.
    split; [by intros g ->|by intros ->].
  - apply le_false in E. split; [rewrite Q.max_r; lra|]. split; [done|].
    split; [intros H; lra|done].
Qed.


(** C4, as the code has it.  For a character owned by an engine,
    [takeDamage(amount)] with amount ≥ health leaves health 0 and [isAlive]
    false and publishes exactly one [character:died]; every later
    [takeDamage] with an amount that is not negative publishes
    [character:died] once more: nothing guards against it. *)
Theorem takeDamage_on_dead_publishes_again
    (this : Character) (g : EngineRef) (amount later : Q) :
  engine this = Some g →
  health this <= amount →
  0 <= later →
  let '(_, dead, first) := takeDamage amount this in
  let '(_, still_dead, second) := takeDamage later dead in
  health dead = 0 ∧ isAlive dead = false ∧
  first = [{| bus_of := g; topic := "character:died";
              payload := CharacterPayload dead |}] ∧
  health still_dead = 0 ∧ isAlive still_dead = false ∧
  second = [{| bus_of := g; topic := "character:died";
               payload := CharacterPayload still_dead |}].
Proof.
  intros Hg Hfatal Hlater. unfold takeDamage. simpl.
  assert (E1 : le (health this - amount) 0 = true) by (apply le_true; lra).
  rewrite E1. simpl.
  assert (E2 : le (0 - later) 0 = true) by (apply le_true; lra).
  rewrite E2. simpl. unfold emit_if_engine. simpl. rewrite Hg. done.
Qed.


Lemma alive_has_health (c : Character) :
  vital_invariant c → isAlive c = true → 0 < health c.
Proof.
  intros (H0 & _ & Hdead) Halive.
  destruct (Qlt_le_dec 0 (health c)) as [|Hle]; [done|].
  assert (Hz : health c == 0) by lra.
  apply Hdead in Hz. congruence.
Qed.

Lemma levelUp_keeps_invariant (newLevel : Q) (c : Character) :
  vital_invariant c → isAlive c = true → level c <= newLevel →
  vital_invariant (levelUp newLevel c).1.
Proof.
  intros Hinv Halive Hup. pose proof (alive_has_health c Hinv Halive) as Hpos.
  destruct Hinv as (H0 & Hmax & Hdead).
  unfold vital_invariant, levelUp. simpl.
  split; [lra|]. split; [lra|]. rewrite Halive.
  split; [done|]. intros Hz. lra.
Qed.

(** C2, as the code has it.  The invariant "health ∈ [0, maxHealth] and
    [isAlive] is false iff health is 0" is kept by [takeDamage] and [heal]
    with amounts that are not negative, the latter on a living character,
    by [addExperience] with any amount on a living character, and by
    [levelUp] of a living character to a level not below its own. *)
Theorem vital_invariant_kept (op : Operation) (this : Character) :
  vital_invariant this →
  keeps_invariant this op →
  vital_invariant (perform op this).
Proof.
  intros Hinv Hop. destruct op as [amount|amount|amount|newLevel]; simpl in *.
  - destruct Hinv as (H0 & Hmax & Hdead).
    unfold vital_invariant, takeDamage. simpl.
    destruct (le (health this - amount) 0) eqn:E; simpl.
    + split; [lra|]. split; [lra|]. done.
    + apply le_false in E. split; [lra|]. split; [lra|].
      split; [|intros Hz; lra].
      intros Hd. apply Hdead in Hd. lra.
  - destruct Hop as [Hamount Halive].
    pose proof (alive_has_health this Hinv Halive) as Hpos.
    destruct Hinv as (H0 & Hmax & Hdead).
    unfold vital_invariant, heal, Math_min. simpl.
    split; [apply Q.min_glb; lra|]. split; [apply Q.le_min_r|].
    rewrite Halive. split; [done|]. intros Hz.
    assert (0 < Qmin (health this + amount) (maxHealth this))
      by (apply Q.min_glb_lt; lra).
    lra.
  - unfold addExperience. simpl.
    destruct (gt _ (level this)) eqn:E.
    + apply gt_true in E.
      apply (levelUp_keeps_invariant _
               (set_experience (experience this + amount) this));
        [done|done|simpl; lra].
    + done.
  - destruct Hop as [Halive Hup]. by apply levelUp_keeps_invariant.
Qed.


(** ** Experience and level *)

Lemma level_for_monotone (e1 e2 : Q) :
  e1 <= e2 → level_for e1 <= level_for e2.
Proof.
  intros H. unfold level_for, Math_floor.
  assert (Hdiv : e1 / 100 <= e2 / 100).
  { unfold Qdiv. apply Qmult_le_compat_r; [done|discriminate]. }
  apply Qfloor_resp_le in Hdiv. rewrite Zle_Qle in Hdiv. lra.
Qed.

Lemma Qplus_0_r_eq (q : Q) : q + 0 = q.
Proof.
  destruct q as [n d]. unfold Qplus. simpl.
  by rewrite Z.mul_1_r, Z.add_0_r, Pos.mul_1_r.
Qed.

Lemma addExperience_level (amount : Q) (c : Character) :
  level (addExperience amount c).1
  = if gt (level_for (experience c + amount)) (level c)
    then level_for (experience c + amount) else level c.
Proof.
  unfold addExperience. simpl. fold (level_for (experience c + amount)).
  by destruct (gt _ (level c)).
Qed.

Lemma addExperience_experience (amount : Q) (c : Character) :
  experience (addExperience amount c).1 = experience c + amount.
Proof.
  unfold addExperience. simpl. by destruct (gt _ (level c)).
Qed.

Lemma addExperience_engine (amount : Q) (c : Character) :
  engine (addExperience amount c).1 = engine c.
Proof.
  unfold addExperience. simpl. by destruct (gt _ (level c)).
Qed.

(** After any call the level is at least the one its experience gives. *)
Lemma addExperience_level_at_least (amount : Q) (c : Character) :
  level_for (experience (addExperience amount c).1)
  <= level (addExperience amount c).1.
Proof.
  rewrite addExperience_level, addExperience_experience.
  destruct (gt _ (level c)) eqn:E; [lra|]. by apply gt_false in E.
Qed.

Lemma addExperience_level_monotone (amount : Q) (c : Character) :
  level c <= level (addExperience amount c).1.
Proof.
  rewrite addExperience_level.
  destruct (gt _ (level c)) eqn:E; [|lra]. apply gt_true in E. lra.
Qed.

Lemma addExperience_keeps_level_exact (amount : Q) (c : Character) :
  0 <= amount →
  level c == level_for (experience c) →
  level (addExperience amount c).1
  == level_for (experience (addExperience amount c).1).
Proof.
  intros Hamount Hexact.
  rewrite addExperience_level, addExperience_experience.
  destruct (gt _ (level c)) eqn:E; [lra|]. apply gt_false in E.
  pose proof (level_for_monotone (experience c) (experience c + amount)
                ltac:(lra)).
  lra.
Qed.

Lemma addExperience_all_level_exact (amounts : list Q) :
  Forall (λ a, 0 <= a) amounts →
  ∀ c, level c == level_for (experience c) →
       level (addExperience_all amounts c)
       == level_for (experience (addExperience_all amounts c)).
Proof.
  induction 1 as [|a amounts Ha _ IH]; intros c Hc; [done|].
  simpl. apply IH. by apply addExperience_keeps_level_exact.
Qed.

Lemma addExperience_all_level_at_least (amounts : list Q) :
  ∀ c, level_for (experience c) <= level c →
       level_for (experience (addExperience_all amounts c))
       <= level (addExperience_all amounts c).
Proof.
  induction amounts as [|a amounts IH]; intros c Hc; [done|].
  simpl. apply IH. apply addExperience_level_at_least.
Qed.

Lemma addExperience_zero (c : Character) :
  level_for (experience c) <= level c → addExperience 0 c = (c, []).
Proof.
  intros Hc. unfold addExperience. simpl.
  rewrite Qplus_0_r_eq. fold (level_for (experience c)).
  assert (E : gt (level_for (experience c)) (level c) = false)
    by by apply gt_false.
  rewrite E. by destruct c.
Qed.

Lemma fresh_level_exact (c : Character) :
  fresh c → level c == level_for (experience c).
Proof. intros [-> ->]. reflexivity. Qed.

(** C6, as the code has it.  Starting from a character with no experience
    at level 1: after every sequence of [addExperience] calls whose amounts
    are not negative the level is floor(experience/100)+1; after every
    sequence of calls, with any amounts, a further call does not lower the
    level, a further call with amount 0 changes nothing and publishes
    nothing, and a further call that raises the level of a character owned
    by an engine, by however many levels, publishes exactly one
    [character:levelUp], carrying the character and the level reached. *)
Theorem addExperience_levels (amounts : list Q) (c0 : Character) :
  fresh c0 →
  let c := addExperience_all amounts c0 in
  (Forall (λ a, 0 <= a) amounts → level c == level_for (experience c)) ∧
  (∀ amount, level c <= level (addExperience amount c).1) ∧
  addExperience 0 c = (c, []) ∧
  (∀ amount g,
     engine c = Some g →
     level c < level_for (experience c + amount) →
     let '(after, published) := addExperience amount c in
     level after = level_for (experience c + amount) ∧
     published = [{| bus_of := g; topic := "character:levelUp";
                     payload := LevelUpPayload after (level after) |}]).
Proof.
  intros Hfresh c. pose proof (fresh_level_exact c0 Hfresh) as Hexact.
  split; [|split; [|split]].
  - intros Hpos. by apply addExperience_all_level_exact.
  - intros amount. apply addExperience_level_monotone.
  - apply addExperience_zero. apply addExperience_all_level_at_least. lra.
  - intros amount g Hg Hraise. unfold addExperience. simpl.
    fold (level_for (experience c + amount)).
    assert (E : gt (level_for (experience c + amount)) (level c) = true)
      by by apply gt_true.
    rewrite E. unfold levelUp, emit_if_engine. simpl. by rewrite Hg.
Qed.


(** ** Combat *)

Lemma Math_round_at_least_1 (q : Q) : 1 <= q → 1 <= Math_round q.
Proof.
  intros H. unfold Math_round.
  assert (Hh : 1 + (1 # 2) <= q + (1 # 2)) by lra.
  apply Qfloor_resp_le in Hh. rewrite Zle_Qle in Hh.
  eapply Qle_trans; [|exact Hh]. discriminate.
Qed.

Lemma calculateDamage_at_least_1 attacker defender multiplier r :
  1 <= (calculateDamage attacker defender multiplier r).1.
Proof.
  unfold calculateDamage. simpl. apply Math_round_at_least_1.
  apply Q.le_max_l.
Qed.

(** C7.  With the random draws as input: the chance of a hit is
    min(0.95, 0.5 + 0.01·(attacker's dexterity − defender's dexterity)); when
    the first draw exceeds it, [performAttack] returns
    [{hit: false, damage: 0, critical: false}], leaves the defender as it
    was and publishes nothing; otherwise it returns a hit whose damage is at
    least 1, and the defender is what [takeDamage] of that damage makes of
    it. *)
Theorem performAttack_miss_and_hit (attacker defender : Character) (r : Random) :
  let u := draws r (drawn r) in
  let '(result, defender', published, _) := performAttack attacker defender r in
  hitChance attacker defender
  == Qmin (95 # 100)
       ((1 # 2) + (1 # 100)
                  * (dexterity (stats attacker) - dexterity (stats defender))) ∧
  (hitChance attacker defender < u →
   result = {| hit := false; damage := 0; critical := false |} ∧
   defender' = defender ∧ published = []) ∧
  (u <= hitChance attacker defender →
   hit result = true ∧ 1 <= damage result ∧
   (takeDamage (damage result) defender).1.2 = defender' ∧
   (takeDamage (damage result) defender).2 = published).
Proof.
  intros u. unfold performAttack. simpl. fold u.
  destruct (gt u (hitChance attacker defender)) eqn:E.
  - apply gt_true in E. split; [|split; [done|intros H; lra]].
    unfold hitChance, Math_min. apply Q.min_compat; [done|ring].
  - apply gt_false in E.
    set (dmg := Math_round _).
    assert (Hdmg : 1 <= dmg)
      by (apply Math_round_at_least_1, Q.le_max_l).
    destruct (takeDamage dmg defender) as [[returned after] published] eqn:Et.
    split; [|split; [intros H; lra|]].
    + unfold hitChance, Math_min. apply Q.min_compat; [done|ring].
    + intros _. simpl. by rewrite Et.
Qed.

(** ** The entity registry *)

(** C9.  When the registry holds at least [maxEntities] entities,
    [addEntity] returns false, leaves engine and entity as they were and
    publishes nothing.  Below the maximum it returns true, stores the entity
    under its id with its [engine] set to this engine, and publishes one
    [entity:added] carrying the entity. *)
Theorem addEntity_respects_capacity (entity : GameObject) (this : RPGEngine) :
  (maxEntities (config this) <= entities_size this →
   addEntity entity this = (false, this, entity, [])) ∧
  (entities_size this < maxEntities (config this) →
   let '(returned, after, entity', published) := addEntity entity this in
   returned = true ∧
   entity' = set_base (set_engine (Some (self this)) (base entity)) entity ∧
   engine (base entity') = Some (self this) ∧
   id (base entity') = id (base entity) ∧
   entities after = <[id (base entity) := entity']> (entities this) ∧
   entities after !! id (base entity) = Some entity' ∧
   published = [{| bus_of := self this; topic := "entity:added";
                   payload := EntityPayload entity' |}]).
Proof.
  unfold addEntity, ge. split.
  - intros Hfull. apply Qle_bool_iff in Hfull. by rewrite Hfull.
  - intros Hroom. apply le_false in Hroom. unfold le in Hroom.
    rewrite Hroom. destruct entity as [e|c]; simpl;
      rewrite lookup_insert_eq; done.
Qed.

(** ** The constructor *)

Lemma or_default_drop_zero (v : option Q) (d : Q) :
  or_default (drop_zero v) d = or_default v d.
Proof.
  destruct v as [q|]; [|done]. simpl.
  destruct (Qeq_bool q 0) eqn:E; simpl; [done|by rewrite E].
Qed.

Lemma or_default_of_zero (q d : Q) : q == 0 → or_default (Some q) d = d.
Proof. intros H. simpl. apply Qeq_bool_iff in H. by rewrite H. Qed.

Lemma or_default_not_zero (v : option Q) (d : Q) :
  ¬ d == 0 → ¬ or_default v d == 0.
Proof.
  intros Hd. destruct v as [q|]; [|done]. simpl.
  destruct (Qeq_bool q 0) eqn:E; [done|]. by apply Qeq_bool_neq.
Qed.

(** C10.  A property configured as 0 is taken by the constructor for an
    absent one: the character built is the one built from the configuration
    without its zeros; health, level, attack and mana configured as 0 come
    out as 100, 1, 5 and 50; and whatever the configuration, the character
    is created alive, with a health and base values other than 0. *)
Theorem configured_zero_is_replaced_by_default
    (id name : string) (config : CharacterConfig) :
  let c := new_Character id name config in
  c = new_Character id name (without_zeros config) ∧
  (∀ q, q == 0 →
        (cfg_health config = Some q → health c = 100) ∧
        (cfg_level config = Some q → level c = 1) ∧
        (cfg_attack config = Some q → attack c = 5) ∧
        (cfg_mana config = Some q → mana c = 50)) ∧
  isAlive c = true ∧
  Forall (λ v, ¬ v == 0) (base_values c).
Proof.
  simpl. split; [|split; [|split]].
  - unfold new_Character, without_zeros. simpl.
    by rewrite !or_default_drop_zero.
  - intros q Hq. repeat split; intros ->; by apply or_default_of_zero.
  - done.
  - unfold base_values. simpl.
    repeat (apply Forall_cons; split; [by apply or_default_not_zero|]).
    apply Forall_nil_2.
Qed.


(** ** Healing and levelling *)

(** X9.  [heal] returns the new health, which never exceeds [maxHealth]
    and, for an amount that is not negative and a health within the
    maximum, is not below the old one.  It changes nothing but the health:
    a dead character that is healed has health again and is still not
    alive. *)
Theorem heal_caps_and_never_revives (amount : Q) (this : Character) :
  let '(returned, after) := heal amount this in
  returned = health after ∧
  health after <= maxHealth this ∧
  (0 <= amount → health this <= maxHealth this →
   health this <= health after) ∧
  after = set_health (health after) this ∧
  (isAlive this = false → health this == 0 → 0 < amount →
   0 < maxHealth this → 0 < health after ∧ isAlive after = false).
Proof.
  unfold heal, Math_min. simpl.
  split; [done|]. split; [apply Q.le_min_r|].
  split; [intros; apply Q.min_glb; lra|]. split; [done|].
  intros Hdead Hz Hpos Hmax. split; [|done].
  apply Q.min_glb_lt; lra.
Qed.

Lemma addExperience_scaling (amount : Q) (c : Character) :
  let c' := (addExperience amount c).1 in
  maxHealth c' - 10 * level c' == maxHealth c - 10 * level c ∧
  maxMana c' - 5 * level c' == maxMana c - 5 * level c ∧
  (level c < level c' → health c' = maxHealth c' ∧ mana c' = maxMana c').
Proof.
  unfold addExperience. simpl.
  destruct (gt _ (level c)) eqn:E; simpl.
  - split; [ring|]. split; [ring|]. done.
  - split; [done|]. split; [done|]. intros H. lra.
Qed.

(** X10.  Through any sequence of [addExperience] calls, with any
    amounts, [maxHealth] moves by 10 and [maxMana] by 5 for each level
    gained; and a call that raises the level leaves health and mana at
    their maxima. *)
Theorem addExperience_scales_maxima (amounts : list Q) (this : Character) :
  let after := addExperience_all amounts this in
  maxHealth after == maxHealth this + 10 * (level after - level this) ∧
  maxMana after == maxMana this + 5 * (level after - level this) ∧
  ∀ amount, level after < level (addExperience amount after).1 →
            health (addExperience amount after).1
            = maxHealth (addExperience amount after).1 ∧
            mana (addExperience amount after).1
            = maxMana (addExperience amount after).1.
Proof.
  simpl. split; [|split].
  - revert this. induction amounts as [|a amounts IH]; intros this; simpl.
    + ring.
    + rewrite IH. destruct (addExperience_scaling a this) as (H & _). lra.
  - revert this. induction amounts as [|a amounts IH]; intros this; simpl.
    + ring.
    + rewrite IH. destruct (addExperience_scaling a this) as (_ & H & _). lra.
  - intros amount. apply addExperience_scaling.
Qed.

(** ** Equipment *)

Lemma slot_named_name (sl : Slot) : slot_named (slot_name sl) = Some sl.
Proof. by destruct sl. Qed.

Lemma get_set_slot (sl sl' : Slot) (v : option Item) (e : Equipment) :
  get_slot sl' (set_slot sl v e) = if decide (sl = sl') then v else get_slot sl' e.
Proof. destruct sl, sl'; done. Qed.

(** X11.  [equipItem] into one of the seven slots returns what the slot
    held and puts the item there; [unequipItem] of that slot then returns
    the item and leaves the slot empty; the other slots are as they were
    throughout. *)
Theorem equipItem_then_unequipItem (item : Item) (sl : Slot)
    (this : Character) :
  let '(previous, equipped) := equipItem item (slot_name sl) this in
  let '(returned, after) := unequipItem sl equipped in
  previous = get_slot sl (equipment this) ∧
  get_slot sl (equipment equipped) = Some item ∧
  returned = Some item ∧
  get_slot sl (equipment after) = None ∧
  ∀ sl', sl' ≠ sl →
         get_slot sl' (equipment equipped) = get_slot sl' (equipment this) ∧
         get_slot sl' (equipment after) = get_slot sl' (equipment this).
Proof.
  unfold equipItem, unequipItem.
  rewrite slot_named_name. simpl. rewrite !get_set_slot.
  destruct (decide (sl = sl)); [|done].
  split; [done|]. split; [done|]. split; [done|]. split; [done|].
  intros sl' Hne. split.
  - rewrite get_set_slot. by destruct (decide (sl = sl')); [subst|].
  - rewrite !get_set_slot. by destruct (decide (sl = sl')); [subst|].
Qed.

Lemma calculateTotalDefense_sum (c : Character) :
  calculateTotalDefense c
  == defense c + defense_bonus (head (equipment c))
     + defense_bonus (chest (equipment c))
     + defense_bonus (hands (equipment c))
     + defense_bonus (legs (equipment c))
     + defense_bonus (feet (equipment c))
     + defense_bonus (mainHand (equipment c))
     + defense_bonus (offHand (equipment c)).
Proof.
  unfold calculateTotalDefense, slots. simpl.
  assert (Hstep : ∀ total slot,
    match slot with
    | Some item => if truthy (item_defense item)
                   then total + default 0 (item_defense item) else total
    | None => total
    end == total + defense_bonus slot).
  { intros total [item|]; simpl; [|ring].
    destruct (item_defense item) as [q|]; simpl; [|ring].
    destruct (Qeq_bool q 0); simpl; ring. }
  rewrite !Hstep. ring.
Qed.

(** X12.  The total attack is the base attack plus the attack bonus of the
    item in the main hand, and the total defense the base defense plus the
    defense bonuses of the items in the seven slots.  So an item equipped
    in the main hand sets the total attack to base plus its bonus, an item
    equipped elsewhere leaves it as it was, and an item equipped in any slot
    moves the total defense by its bonus less that of the item it
    replaces. *)
Theorem equipItem_moves_totals (item : Item) (sl : Slot) (this : Character) :
  let equipped := (equipItem item (slot_name sl) this).2 in
  (sl = MainHand →
   calculateTotalAttack equipped = attack this + or_default (item_attack item) 0) ∧
  (sl ≠ MainHand → calculateTotalAttack equipped = calculateTotalAttack this) ∧
  calculateTotalDefense equipped
  == calculateTotalDefense this
     - defense_bonus (get_slot sl (equipment this))
     + defense_bonus (Some item).
Proof.
  unfold equipItem. rewrite slot_named_name. simpl. split; [|split].
  - by intros ->.
  - intros Hne. unfold calculateTotalAttack. simpl. by destruct sl.
  - rewrite !calculateTotalDefense_sum. destruct sl; simpl; ring.
Qed.

(** ** More on combat *)

Lemma hitChance_at_most (attacker defender : Character) :
  hitChance attacker defender <= 95 # 100.
Proof. unfold hitChance, Math_min. apply Q.le_min_l. Qed.

(** X13.  The chance of a hit is never above 0.95, and it is below 0 when
    the defender's dexterity exceeds the attacker's by more than 50: then
    [performAttack] misses whatever number in [0, 1) is drawn, and takes
    one number only from the random source. *)
Theorem performAttack_certain_miss (attacker defender : Character) (r : Random) :
  dexterity (stats attacker) + 50 < dexterity (stats defender) →
  0 <= draws r (drawn r) →
  hitChance attacker defender <= 95 # 100 ∧
  hitChance attacker defender < 0 ∧
  performAttack attacker defender r
  = ({| hit := false; damage := 0; critical := false |}, defender, [],
     {| draws := draws r; drawn := S (drawn r) |}).
Proof.
  intros Hdex Hu. split; [apply hitChance_at_most|].
  assert (Hneg : hitChance attacker defender < 0).
  { unfold hitChance, Math_min.
    eapply Qle_lt_trans; [apply Q.le_min_r|]. lra. }
  split; [done|]. unfold performAttack. simpl.
  assert (E : gt (draws r (drawn r)) (hitChance attacker defender) = true)
    by (apply gt_true; lra).
  by rewrite E.
Qed.

(** X14.  [performAttack] takes one number from the random source when it
    misses and three when it hits (hit roll, critical roll, damage
    variance), in that order.  On a hit by an attacker whose dexterity is
    100 or more, any critical roll below 1 gives a critical hit, and the
    damage is computed with the multiplier 1.5. *)
Theorem performAttack_draws (attacker defender : Character) (r : Random) :
  let u1 := draws r (drawn r) in
  let u2 := draws r (S (drawn r)) in
  let u3 := draws r (S (S (drawn r))) in
  let '(result, _, _, r') := performAttack attacker defender r in
  draws r' = draws r ∧
  drawn r' = (if hit result then 3 + drawn r else 1 + drawn r)%nat ∧
  (hit result = true →
   critical result = lt u2 (dexterity (stats attacker) / 100) ∧
   damage result
   = Math_round
       (Math_max 1
          ((calculateTotalAttack attacker
            * (if critical result then 15 # 10 else 1)
            - calculateTotalDefense defender * (1 # 2))
           * (1 + (u3 * (2 # 10) - (1 # 10)))))) ∧
  (hit result = true → 100 <= dexterity (stats attacker) → u2 < 1 →
   critical result = true).
Proof.
  intros u1 u2 u3. unfold performAttack. simpl. fold u1 u2 u3.
  destruct (gt u1 (hitChance attacker defender)); [done|].
  set (dmg := Math_round _).
  destruct (takeDamage dmg defender) as [[returned after] published].
  simpl. split; [done|]. split; [done|]. split; [done|].
  intros _ Hdex Hu2. unfold lt. apply negb_true_iff, le_false.
  assert (1 <= dexterity (stats attacker) / 100); [|lra].
  apply Qle_shift_div_l; [done|lra].
Qed.

(** X15.  An attack whose power (total attack times multiplier) is not
    above half the defender's total defense deals exactly 1, whatever
    variance in [0, 1) is drawn. *)
Theorem calculateDamage_floor (attacker defender : Character)
    (baseMultiplier : Q) (r : Random) :
  calculateTotalAttack attacker * baseMultiplier
  <= calculateTotalDefense defender * (1 # 2) →
  0 <= draws r (drawn r) →
  (calculateDamage attacker defender baseMultiplier r).1 = 1.
Proof.
  intros Hweak Hu.
  set (x := (calculateTotalAttack attacker * baseMultiplier
             - calculateTotalDefense defender * (1 # 2))
            * (1 + (draws r (drawn r) * (2 # 10) - (1 # 10)))).
  change ((calculateDamage attacker defender baseMultiplier r).1)
    with (inject_Z (Qfloor (Qmax 1 x + (1 # 2)))).
  assert (Hx : x <= 1).
  { unfold x. clear x.
    set (p := calculateTotalAttack attacker * baseMultiplier) in *.
    set (q := calculateTotalDefense defender * (1 # 2)) in *.
    set (u := draws r (drawn r)) in *. nra. }
  assert (Hm : Qmax 1 x + (1 # 2) == 1 + (1 # 2))
    by (apply Qplus_inj_r; by apply Q.max_l).
  by rewrite (Qfloor_comp _ _ Hm).
Qed.

Lemma Math_round_monotone (q1 q2 : Q) :
  q1 <= q2 → Math_round q1 <= Math_round q2.
Proof.
  intros H. unfold Math_round.
  assert (Hh : q1 + (1 # 2) <= q2 + (1 # 2)) by lra.
  apply Qfloor_resp_le in Hh. by rewrite Zle_Qle in Hh.
Qed.

(** X16.  The experience reward for a defeated character of level 1 or
    more, at a reward level that is not negative, is at least 50; and at a
    reward level of -10 or more a defeated character of higher level never
    gives less. *)
Theorem calculateExperienceReward_bounds (c1 c2 : Character) (rewardLevel : Q) :
  (1 <= level c1 → 0 <= rewardLevel →
   50 <= calculateExperienceReward c1 rewardLevel) ∧
  (level c1 <= level c2 → -10 <= rewardLevel →
   calculateExperienceReward c1 rewardLevel
   <= calculateExperienceReward c2 rewardLevel).
Proof.
  unfold calculateExperienceReward. split.
  - intros Hl Hr.
    eapply Qle_trans; [|apply Math_round_monotone with (q1 := 50)].
    + discriminate.
    + nra.
  - intros Hl Hr. apply Math_round_monotone. nra.
Qed.

(** ** More on the registry *)

(** X17.  [removeEntity] of an id that is not registered returns false,
    changes nothing and publishes nothing.  Of a registered id it returns
    true, removes that id and no other, makes the registry one smaller and
    publishes one [entity:removed] carrying the entity that was stored. *)
Theorem removeEntity_removes_one (entityId : string) (this : RPGEngine) :
  (entities this !! entityId = None →
   removeEntity entityId this = (false, this, [])) ∧
  (∀ entity, entities this !! entityId = Some entity →
     let '(returned, after, published) := removeEntity entityId this in
     returned = true ∧
     getEntity entityId after = None ∧
     (∀ other, other ≠ entityId →
               getEntity other after = getEntity other this) ∧
     S (size (entities after)) = size (entities this) ∧
     config after = config this ∧
     published = [{| bus_of := self this; topic := "entity:removed";
                     payload := EntityPayload entity |}]).
Proof.
  unfold removeEntity, getEntity. split.
  - by intros ->.
  - intros entity Hin. rewrite Hin. simpl.
    split; [done|]. split; [by rewrite lookup_delete_eq|].
    split; [by intros other Hne; rewrite lookup_delete_ne|].
    split; [|done].
    rewrite map_size_delete, Hin.
    assert (size (entities this) ≠ 0%nat); [|simpl; lia].
    intros Hz. apply map_size_empty_inv in Hz.
    by rewrite Hz, lookup_empty in Hin.
Qed.

(** X18.  An entity added under an id that was free can be looked up under
    that id, with its [engine] set, while every other id is as it was; and
    removing it again leaves the registry as it was before.  The entity
    carried by [entity:removed] still has its [engine] set: removal does not
    detach it. *)
Theorem addEntity_then_removeEntity (entity : GameObject) (this : RPGEngine) :
  entities_size this < maxEntities (config this) →
  entities this !! id (base entity) = None →
  let '(_, added, entity', _) := addEntity entity this in
  let '(returned, removed, published) :=
    removeEntity (id (base entity)) added in
  getEntity (id (base entity)) added = Some entity' ∧
  (∀ other, other ≠ id (base entity) →
            getEntity other added = getEntity other this) ∧
  returned = true ∧
  entities removed = entities this ∧
  published = [{| bus_of := self this; topic := "entity:removed";
                  payload := EntityPayload entity' |}] ∧
  engine (base entity') = Some (self this).
Proof.
  intros Hroom Hfree. unfold addEntity, ge.
  apply le_false in Hroom. unfold le in Hroom. rewrite Hroom.
  unfold removeEntity, getEntity. simpl.
  assert (Hid : id (base (set_base (set_engine (Some (self this))
                                      (base entity)) entity))
                = id (base entity)) by by destruct entity.
  rewrite Hid, lookup_insert_eq. simpl.
  split; [done|]. split; [by intros other Hne; rewrite lookup_insert_ne|].
  split; [done|]. split; [by rewrite delete_insert_id|].
  split; [done|]. by destruct entity.
Qed.

Lemma registry_call_config (c : RegistryCall) (this : RPGEngine) :
  config (registry_call c this) = config this.
Proof.
  destruct c as [entity|entityId]; simpl.
  - unfold addEntity. by destruct (ge _ _).
  - unfold removeEntity. by destruct (entities this !! entityId).
Qed.

Lemma registry_call_bound (c : RegistryCall) (this : RPGEngine) :
  entities_size this < maxEntities (config this) + 1 →
  entities_size (registry_call c this) < maxEntities (config this) + 1.
Proof.
  intros Hinv. destruct c as [entity|entityId]; simpl.
  - unfold addEntity. destruct (ge _ _) eqn:E; [done|].
    apply le_false in E. simpl. unfold entities_size in *. simpl.
    rewrite map_size_insert.
    destruct (entities this !! _); simpl; [exact Hinv|].
    rewrite Nat2Z.inj_succ, <- Z.add_1_r, inject_Z_plus.
    set (n := inject_Z (Z.of_nat _)) in *. change (inject_Z 1) with 1. lra.
  - unfold removeEntity.
    destruct (entities this !! entityId) as [o|] eqn:E; [|done].
    simpl. unfold entities_size in *. simpl.
    rewrite map_size_delete, E.
    assert (Hle : inject_Z (Z.of_nat (Init.Nat.pred (size (entities this))))
                  <= inject_Z (Z.of_nat (size (entities this))))
      by (rewrite <- Zle_Qle; lia).
    eapply Qle_lt_trans; [exact Hle|exact Hinv].
Qed.

(** X19.  Through any sequence of [addEntity] and [removeEntity] calls the
    configuration stays the same and the registry stays below
    [maxEntities + 1] entities once it is: with a [maxEntities] that is an
    integer, it never holds more than [maxEntities]. *)
Theorem registry_stays_within_capacity (cs : list RegistryCall)
    (this : RPGEngine) :
  entities_size this < maxEntities (config this) + 1 →
  let after := registry_calls cs this in
  config after = config this ∧
  entities_size after < maxEntities (config this) + 1 ∧
  ∀ n : Z, maxEntities (config this) = inject_Z n →
           entities_size after <= maxEntities (config this).
Proof.
  intros Hinv. simpl.
  assert (H : config (registry_calls cs this) = config this ∧
              entities_size (registry_calls cs this)
              < maxEntities (config this) + 1).
  { revert this Hinv. induction cs as [|c cs IH]; intros this Hinv; [done|].
    simpl. pose proof (registry_call_config c this) as Hc.
    pose proof (registry_call_bound c this Hinv) as Hb.
    rewrite <- Hc in Hb |- *. by apply IH. }
  destruct H as [Hc Hb]. split; [done|]. split; [done|].
  intros n Hn. rewrite Hn in Hb |- *. unfold entities_size in *.
  rewrite <- Zle_Qle.
  change 1 with (inject_Z 1) in Hb. rewrite <- inject_Z_plus in Hb.
  rewrite <- Zlt_Qlt in Hb. lia.
Qed.

Lemma registry_call_refused (c : RegistryCall) (this : RPGEngine) :
  entities this = ∅ → maxEntities (config this) <= 0 →
  entities (registry_call c this) = ∅.
Proof.
  intros Hempty Hmax. destruct c as [entity|entityId]; simpl.
  - unfold addEntity, ge, entities_size. rewrite Hempty, map_size_empty.
    assert (E : Qle_bool (maxEntities (config this)) (inject_Z (Z.of_nat 0))
                = true) by by apply Qle_bool_iff.
    by rewrite E.
  - unfold removeEntity. by rewrite Hempty, lookup_empty.
Qed.

(** X20.  The engine's constructor keeps a configured [maxEntities] as it
    is, zero included (the spread of [config] comes after the defaults),
    and takes 1000 when none is configured.  An engine constructed with a
    [maxEntities] of 0 or less never registers an entity. *)
Theorem configured_maxEntities_is_kept (self0 : EngineRef)
    (options : EngineOptions) :
  (∀ q, opt_maxEntities options = Some q →
        maxEntities (config (new_RPGEngine self0 options)) = q) ∧
  (opt_maxEntities options = None →
   maxEntities (config (new_RPGEngine self0 options)) = 1000) ∧
  (∀ q cs, opt_maxEntities options = Some q → q <= 0 →
           entities (registry_calls cs (new_RPGEngine self0 options)) = ∅).
Proof.
  split; [|split].
  - intros q Hq. simpl. by rewrite Hq.
  - intros Hq. simpl. by rewrite Hq.
  - intros q cs Hq Hle.
    assert (Hgen : ∀ this, entities this = ∅ → maxEntities (config this) <= 0 →
                           entities (registry_calls cs this) = ∅).
    { induction cs as [|c cs IH]; intros this He Hm; [done|]. simpl.
      apply IH; [by apply registry_call_refused|].
      by rewrite registry_call_config. }
    apply Hgen; [done|]. simpl. by rewrite Hq.
Qed.

End GameFacts.

(** ** The properties on the concrete game *)

Lemma takeDamage_clamps_and_announces_death_witness :
  let '(returned, after, published) :=
    RPG.takeDamage 120 GameScenario.registered_hero in
  returned = 0%Q ∧ RPG.health after = 0%Q ∧ RPG.isAlive after = false ∧
  published = [{| RPG.bus_of := 0; RPG.topic := "character:died";
                  RPG.payload := RPG.CharacterPayload after |}].
Proof.
  pose proof (takeDamage_clamps_and_announces_death 120
                GameScenario.registered_hero) as H.
  destruct (RPG.takeDamage 120 GameScenario.registered_hero)
    as [[returned after] published] eqn:E.
  destruct H as (_ & Hret & Hdead & _).
  assert (Hh : RPG.health after = 0%Q) by (by injection E as _ <- _).
  destruct Hdead as (Halive & Hpub & _); [by rewrite Hh|].
  split; [by rewrite Hret|]. split; [done|]. split; [done|].
  by apply Hpub.
Defined.

Lemma takeDamage_on_dead_publishes_again_witness :
  let '(_, dead, first) := RPG.takeDamage 100 GameScenario.registered_hero in
  let '(_, still_dead, second) := RPG.takeDamage 10 dead in
  RPG.health dead = 0%Q ∧ RPG.isAlive dead = false ∧
  first = [{| RPG.bus_of := 0; RPG.topic := "character:died";
              RPG.payload := RPG.CharacterPayload dead |}] ∧
  RPG.health still_dead = 0%Q ∧ RPG.isAlive still_dead = false ∧
  second = [{| RPG.bus_of := 0; RPG.topic := "character:died";
               RPG.payload := RPG.CharacterPayload still_dead |}].
Proof.
  apply (takeDamage_on_dead_publishes_again GameScenario.registered_hero 0
           100%Q 10%Q); [reflexivity | discriminate | discriminate].
Defined.

(** C4, as stated, fails on the code: the hero is killed by a first call,
    and a second call on the dead hero publishes [character:died] again. *)
Lemma died_is_published_twice :
  let '(_, dead, first) := RPG.takeDamage 100 GameScenario.registered_hero in
  let '(_, _, second) := RPG.takeDamage 10 dead in
  RPG.isAlive dead = false ∧
  map RPG.topic first = ["character:died"%string] ∧
  map RPG.topic second = ["character:died"%string] ∧
  ¬ (second = []).
Proof. vm_compute. repeat split; discriminate. Qed.

Lemma vital_invariant_kept_witness :
  RPG.vital_invariant GameScenario.hero ∧
  RPG.vital_invariant (RPG.perform (RPG.TakeDamage 30) GameScenario.hero) ∧
  RPG.vital_invariant (RPG.perform (RPG.Heal 30) GameScenario.hero) ∧
  RPG.vital_invariant (RPG.perform (RPG.AddExperience 250) GameScenario.hero) ∧
  RPG.vital_invariant (RPG.perform (RPG.LevelUp 4) GameScenario.hero).
Proof.
  assert (H : RPG.vital_invariant GameScenario.hero).
  { repeat split; try discriminate; intros H; discriminate H. }
  split; [exact H|].
  split; [|split; [|split]].
  - apply (vital_invariant_kept (RPG.TakeDamage 30) _ H). discriminate.
  - apply (vital_invariant_kept (RPG.Heal 30) _ H). by split.
  - apply (vital_invariant_kept (RPG.AddExperience 250) _ H). reflexivity.
  - apply (vital_invariant_kept (RPG.LevelUp 4) _ H). by split.
Defined.

(** C2, as stated, fails on the code: healing the hero by a negative amount
    leaves a negative health. *)
Lemma heal_by_negative_amount_breaks_invariant :
  RPG.vital_invariant GameScenario.hero ∧
  RPG.health (RPG.perform (RPG.Heal (-150)) GameScenario.hero) = (-50)%Q ∧
  ¬ RPG.vital_invariant (RPG.perform (RPG.Heal (-150)) GameScenario.hero).
Proof.
  split; [|split].
  - repeat split; try discriminate; intros H; discriminate H.
  - reflexivity.
  - intros [H _]. vm_compute in H. by apply H.
Qed.

Lemma addExperience_levels_witness :
  RPG.fresh GameScenario.registered_hero ∧
  RPG.level (RPG.addExperience_all [250; 0; 70]%Q GameScenario.registered_hero)
  == 4 ∧
  let '(after, published) :=
    RPG.addExperience 250 GameScenario.registered_hero in
  RPG.level after = 3%Q ∧
  published = [{| RPG.bus_of := 0; RPG.topic := "character:levelUp";
                  RPG.payload := RPG.LevelUpPayload after 3 |}].
Proof.
  split; [by split|]. split.
  - apply (proj1 (addExperience_levels [250; 0; 70]%Q
                    GameScenario.registered_hero (conj eq_refl eq_refl))).
    repeat constructor; discriminate.
  - assert (Hg : RPG.engine (RPG.entity GameScenario.registered_hero)
                 = Some 0%nat)
      by (vm_compute; reflexivity).
    assert (Hl : (RPG.level GameScenario.registered_hero
                  < RPG.level_for
                      (RPG.experience GameScenario.registered_hero + 250))%Q)
      by (vm_compute; reflexivity).
    pose proof (proj2 (proj2 (proj2 (addExperience_levels []
                  GameScenario.registered_hero (conj eq_refl eq_refl))))
                  250%Q 0%nat Hg Hl) as H.
    revert H. vm_compute. intros H. exact H.
Defined.

(** C6, as stated, fails on the code: after gaining 250 and losing 200 the
    hero has 50 experience and is still at level 3. *)
Lemma level_is_kept_when_experience_drops :
  let c := RPG.addExperience_all [250; -200]%Q GameScenario.hero in
  RPG.experience c == 50 ∧ RPG.level c == 3 ∧
  RPG.level_for (RPG.experience c) == 1 ∧
  ¬ RPG.level c == RPG.level_for (RPG.experience c).
Proof. vm_compute. repeat split; discriminate. Qed.

Lemma performAttack_miss_and_hit_witness :
  (let '(result, defender', published, _) :=
     RPG.performAttack GameScenario.hero GameScenario.rat
       (GameScenario.always (99 # 100)) in
   result = {| RPG.hit := false; RPG.damage := 0; RPG.critical := false |} ∧
   defender' = GameScenario.rat ∧ published = []) ∧
  (let '(result, defender', published, _) :=
     RPG.performAttack GameScenario.hero GameScenario.rat
       (GameScenario.always (1 # 2)) in
   RPG.hit result = true ∧ (1 <= RPG.damage result)%Q ∧
   (RPG.takeDamage (RPG.damage result) GameScenario.rat).1.2 = defender' ∧
   (RPG.takeDamage (RPG.damage result) GameScenario.rat).2 = published).
Proof.
  split.
  - pose proof (performAttack_miss_and_hit GameScenario.hero GameScenario.rat
                  (GameScenario.always (99 # 100))) as H.
    cbv zeta in H.
    destruct (RPG.performAttack _ _ _) as [[[result defender'] published] r'].
    destruct H as (_ & Hmiss & _). apply Hmiss. reflexivity.
  - pose proof (performAttack_miss_and_hit GameScenario.hero GameScenario.rat
                  (GameScenario.always (1 # 2))) as H.
    cbv zeta in H.
    destruct (RPG.performAttack _ _ _) as [[[result defender'] published] r'].
    destruct H as (_ & _ & Hhit). apply Hhit. discriminate.
Defined.

Lemma addEntity_respects_capacity_witness :
  RPG.addEntity (RPG.ACharacter GameScenario.rat) GameScenario.full_engine
  = (false, GameScenario.full_engine, RPG.ACharacter GameScenario.rat, []) ∧
  (let '(returned, after, entity', published) :=
     RPG.addEntity (RPG.ACharacter GameScenario.hero) GameScenario.engine0 in
   returned = true ∧
   RPG.engine (RPG.base entity') = Some 0 ∧
   RPG.entities after !! "hero"%string = Some entity' ∧
   published = [{| RPG.bus_of := 0; RPG.topic := "entity:added";
                   RPG.payload := RPG.EntityPayload entity' |}]).
Proof.
  split.
  - apply (proj1 (addEntity_respects_capacity
                    (RPG.ACharacter GameScenario.rat)
                    GameScenario.full_engine)).
    vm_compute. discriminate.
  - pose proof (proj2 (addEntity_respects_capacity
                         (RPG.ACharacter GameScenario.hero)
                         GameScenario.engine0)) as H.
    destruct (RPG.addEntity _ _) as [[[returned after] entity'] published].
    destruct H as (Hr & _ & Hg & _ & _ & Hl & Hp); [reflexivity|].
    repeat split; assumption.
Defined.

Lemma configured_zero_is_replaced_by_default_witness :
  let c := RPG.new_Character "ghost" "Ghost" GameScenario.zero_config in
  RPG.health c = 100%Q ∧ RPG.level c = 1%Q ∧ RPG.attack c = 5%Q ∧
  RPG.mana c = 50%Q ∧ RPG.isAlive c = true ∧
  c = RPG.new_Character "ghost" "Ghost" RPG.empty_config.
Proof.
  destruct (configured_zero_is_replaced_by_default "ghost" "Ghost"
              GameScenario.zero_config) as (Heq & Hzero & Halive & _).
  destruct (Hzero 0%Q ltac:(reflexivity)) as (Hh & Hl & Ha & Hm).
  cbv zeta.
  split; [by apply Hh|]. split; [by apply Hl|]. split; [by apply Ha|].
  split; [by apply Hm|]. split; [exact Halive|exact Heq].
Defined.

(* ===================================================================== *)
(** * Properties of the Inventory                                         *)
(* ===================================================================== *)

Section InventoryFacts.
Import JS Inventory.
Local Open Scope Q_scope.

Lemma total_quantity_app itemId (l1 l2 : list InventoryItem) :
  total_quantity itemId (l1 ++ l2)
  == total_quantity itemId l1 + total_quantity itemId l2.
Proof.
  induction l1 as [|i l1 IH]; simpl; [ring|].
  destruct (has_id itemId i); rewrite IH; ring.
Qed.

Lemma length_update_first p f (l : list InventoryItem) :
  length (update_first p f l) = length l.
Proof.
  induction l as [|i l IH]; simpl; [done|].
  destruct (p i); simpl; by rewrite ?IH.
Qed.

(** Changing the quantity of the first entry that satisfies [p] moves the
    total of its id, and of no other id. *)
Lemma total_quantity_update_first itemId p (delta : Q)
    (l : list InventoryItem) found :
  List.find p l = Some found →
  total_quantity itemId
    (update_first p (λ i, set_quantity (quantity i + delta) i) l)
  == total_quantity itemId l + (if has_id itemId found then delta else 0).
Proof.
  induction l as [|i l IH]; simpl; [done|].
  destruct (p i) eqn:Ep.
  - intros [= <-]. simpl. unfold has_id. simpl.
    destruct (bool_decide (id i = itemId)); ring.
  - intros Hfind. simpl. specialize (IH Hfind).
    destruct (has_id itemId i); rewrite IH; ring.
Qed.

Lemma find_has_id itemId (l : list InventoryItem) found :
  List.find (has_id itemId) l = Some found → id found = itemId.
Proof.
  intros H. apply List.find_some in H as [_ H].
  by apply bool_decide_eq_true in H.
Qed.

(** X21.  [addItem] keeps [maxSlots].  When it returns true the quantity
    held of the item's id has grown by the quantity added, and no other id
    has moved; an item that stacks with an entry takes no slot, and is
    accepted also when the inventory is full.  When it returns false the
    inventory is full and unchanged. *)
Theorem addItem_adds_quantity (item : InventoryItem) (q : Q)
    (this : Inventory) :
  let '(returned, after) := addItem item q this in
  maxSlots after = maxSlots this ∧
  (returned = true →
   total_quantity (id item) (items after)
   == total_quantity (id item) (items this) + q) ∧
  (∀ other, other ≠ id item →
            total_quantity other (items after)
            == total_quantity other (items this)) ∧
  (returned = false → after = this ∧ isFull this = true) ∧
  (∀ existing,
     List.find (λ i, has_id (id item) i && stackable i) (items this)
     = Some existing →
     returned = true ∧ length (items after) = length (items this)).
Proof.
  unfold addItem.
  destruct (List.find _ (items this)) as [existing|] eqn:Efind.
  - simpl. split; [done|].
    assert (Hid : id existing = id item).
    { apply List.find_some in Efind as [_ H].
      apply andb_true_iff in H as [H _]. by apply bool_decide_eq_true in H. }
    split; [|split; [|split]].
    + intros _. rewrite (total_quantity_update_first _ _ q _ _ Efind).
      unfold has_id. by rewrite bool_decide_eq_true_2.
    + intros other Hne.
      rewrite (total_quantity_update_first _ _ q _ _ Efind).
      unfold has_id. rewrite bool_decide_eq_false_2 by congruence. ring.
    + done.
    + intros existing' _. split; [done|]. apply length_update_first.
  - destruct (lt _ (maxSlots this)) eqn:Eroom; simpl.
    + split; [done|]. split; [|split; [|split]]; try done.
      * intros _. rewrite total_quantity_app. simpl.
        unfold has_id. simpl. rewrite bool_decide_eq_true_2 by done. ring.
      * intros other Hne. rewrite total_quantity_app. simpl.
        unfold has_id. simpl. rewrite bool_decide_eq_false_2 by done. ring.
    + split; [done|]. split; [done|]. split; [done|]. split; [|done].
      intros _. split; [done|]. unfold isFull, ge.
      unfold lt in Eroom. by apply negb_false_iff in Eroom.
Qed.

Lemma total_quantity_filtered itemId (l : list InventoryItem) :
  total_quantity itemId (List.filter (λ i, negb (has_id itemId i)) l) = 0.
Proof.
  induction l as [|i l IH]; simpl; [done|].
  destruct (has_id itemId i) eqn:E; simpl; [done|]. by rewrite E.
Qed.

Lemma total_quantity_filtered_other itemId other (l : list InventoryItem) :
  other ≠ itemId →
  total_quantity other (List.filter (λ i, negb (has_id itemId i)) l)
  = total_quantity other l.
Proof.
  intros Hne. induction l as [|i l IH]; simpl; [done|].
  destruct (has_id itemId i) eqn:E; simpl.
  - apply bool_decide_eq_true in E. unfold has_id at 2.
    by rewrite bool_decide_eq_false_2 by congruence.
  - by rewrite IH.
Qed.

Lemma filter_update_first itemId f (l : list InventoryItem) :
  (∀ i, id (f i) = id i) →
  List.filter (λ i, negb (has_id itemId i)) (update_first (has_id itemId) f l)
  = List.filter (λ i, negb (has_id itemId i)) l.
Proof.
  intros Hf. induction l as [|i l IH]; simpl; [done|].
  destruct (has_id itemId i) eqn:E; simpl.
  - unfold has_id in *. rewrite Hf, E. done.
  - rewrite E. simpl. by rewrite IH.
Qed.

(** X22.  [removeItem] of an id the inventory has no entry of returns
    false and changes nothing.  Otherwise it returns true: when the first
    entry of the id holds more than the quantity removed, that quantity is
    taken from it and nothing else moves; when it does not, every entry of
    the id is removed, whatever the other entries of the id hold, and the
    entries of other ids stay in their order. *)
Theorem removeItem_takes_or_removes (itemId : string) (q : Q)
    (this : Inventory) :
  (getItem itemId this = None → removeItem itemId q this = (false, this)) ∧
  (∀ item, getItem itemId this = Some item →
     let '(returned, after) := removeItem itemId q this in
     returned = true ∧
     (q < quantity item →
      length (items after) = length (items this) ∧
      total_quantity itemId (items after)
      == total_quantity itemId (items this) - q ∧
      ∀ other, other ≠ itemId →
               total_quantity other (items after)
               == total_quantity other (items this)) ∧
     (quantity item <= q →
      items after
      = List.filter (λ i, negb (has_id itemId i)) (items this) ∧
      getItem itemId after = None ∧
      total_quantity itemId (items after) = 0)).
Proof.
  unfold getItem, removeItem. split.
  - by intros ->.
  - intros item Hfind. rewrite Hfind.
    pose proof (find_has_id _ _ _ Hfind) as Hid.
    destruct (le (quantity item - q) 0) eqn:E; simpl.
    + apply le_true in E. split; [done|]. split; [intros; lra|].
      intros _. rewrite filter_update_first by done.
      split; [done|]. split; [|apply total_quantity_filtered].
      destruct (List.find _ (List.filter _ _)) as [j|] eqn:Ej; [|done].
      apply List.find_some in Ej as [Hin Hj].
      apply List.filter_In in Hin as [_ Hn]. by rewrite Hj in Hn.
    + apply le_false in E. split; [done|]. split; [|intros; lra].
      intros _. split; [apply length_update_first|].
      assert (Hm : ∀ other,
                total_quantity other
                  (update_first (has_id itemId)
                     (λ i, set_quantity (quantity i - q) i) (items this))
                == total_quantity other (items this)
                   + (if has_id other item then - q else 0)).
      { intros other.
        rewrite <- (total_quantity_update_first other _ (- q) _ _ Hfind).
        clear. induction (items this) as [|i l IH]; simpl; [done|].
        destruct (has_id itemId i); simpl.
        - unfold has_id. simpl. destruct (bool_decide _); ring.
        - destruct (has_id other i); by rewrite IH. }
      split.
      * rewrite Hm. unfold has_id. rewrite bool_decide_eq_true_2 by done. ring.
      * intros other Hne. rewrite Hm. unfold has_id.
        rewrite bool_decide_eq_false_2 by congruence. ring.
Qed.

Lemma inventory_call_bound (c : InventoryCall) (this : Inventory) :
  inject_Z (Z.of_nat (length (items this))) < maxSlots this + 1 →
  maxSlots (inventory_call c this) = maxSlots this ∧
  inject_Z (Z.of_nat (length (items (inventory_call c this))))
  < maxSlots this + 1.
Proof.
  intros Hinv. destruct c as [item q|itemId q|]; simpl.
  - unfold addItem. destruct (List.find _ _); simpl.
    + by rewrite length_update_first.
    + destruct (lt _ (maxSlots this)) eqn:E; simpl; [|done].
      split; [done|]. unfold lt in E. apply negb_true_iff in E.
      fold (le (maxSlots this)
              (inject_Z (Z.of_nat (length (items this))))) in E.
      rewrite length_app. simpl.
      rewrite Nat2Z.inj_add, inject_Z_plus.
      set (n := inject_Z (Z.of_nat (length (items this)))) in *.
      change (inject_Z (Z.of_nat 1)) with 1.
      assert (n < maxSlots this); [|lra].
      revert E. unfold le. intros E.
      apply Qnot_le_lt. intros Hle. apply Qle_bool_iff in Hle. congruence.
  - unfold removeItem. destruct (List.find _ _); simpl; [|done].
    destruct (le _ 0); simpl.
    + split; [done|]. eapply Qle_lt_trans; [|exact Hinv].
      rewrite <- Zle_Qle. apply inj_le.
      rewrite filter_update_first by done.
      apply List.filter_length_le.
    + by rewrite length_update_first.
  - split; [done|]. simpl. eapply Qle_lt_trans; [|exact Hinv].
    rewrite <- Zle_Qle. lia.
Qed.

(** X23.  Through any sequence of [addItem], [removeItem] and [clear]
    calls [maxSlots] stays the same and the number of entries stays below
    [maxSlots + 1] once it is: with a [maxSlots] that is an integer, the
    inventory never has more than [maxSlots] entries. *)
Theorem inventory_stays_within_slots (cs : list InventoryCall)
    (this : Inventory) :
  inject_Z (Z.of_nat (length (items this))) < maxSlots this + 1 →
  let after := inventory_calls cs this in
  maxSlots after = maxSlots this ∧
  inject_Z (Z.of_nat (getSize after)) < maxSlots this + 1 ∧
  ∀ n : Z, maxSlots this = inject_Z n →
           inject_Z (Z.of_nat (getSize after)) <= maxSlots this.
Proof.
  intros Hinv. simpl. unfold getSize.
  assert (H : maxSlots (inventory_calls cs this) = maxSlots this ∧
              inject_Z (Z.of_nat (length (items (inventory_calls cs this))))
              < maxSlots this + 1).
  { revert this Hinv. induction cs as [|c cs IH]; intros this Hinv; [done|].
    simpl. destruct (inventory_call_bound c this Hinv) as [Hm Hb].
    rewrite <- Hm in Hb |- *. by apply IH. }
  destruct H as [Hm Hb]. split; [done|]. split; [done|].
  intros n Hn. rewrite Hn in Hb |- *.
  rewrite <- Zle_Qle.
  change 1 with (inject_Z 1) in Hb. rewrite <- inject_Z_plus in Hb.
  rewrite <- Zlt_Qlt in Hb. lia.
Qed.

End InventoryFacts.

(* ===================================================================== *)
(** * Properties of Scene                                                 *)
(* ===================================================================== *)

Section SceneFacts.
Import RPG.
Local Open Scope Q_scope.

Lemma id_set_engine (g : option EngineRef) (o : GameObject) :
  id (base (set_base (set_engine g (base o)) o)) = id (base o).
Proof. by destruct o. Qed.

(** X24.  [Scene.addEntity] lists the entity in the scene whether or not
    the engine accepts it: when the engine is at its maximum the scene has
    the entity and the registry is as it was, so an id that was not
    registered is in the scene and not in the engine. *)
Theorem scene_addEntity_lists_even_when_refused (entity : GameObject)
    (this : Scene.Scene) (engine : RPGEngine) :
  let '(scene', engine', published) := Scene.addEntity entity this engine in
  Scene.ids scene' = Scene.ids this ++ [id (base entity)] ∧
  (maxEntities (config engine) <= entities_size engine →
   engine' = engine ∧ published = []) ∧
  (entities_size engine < maxEntities (config engine) →
   is_Some (getEntity (id (base entity)) engine')).
Proof.
  unfold Scene.addEntity, addEntity, JS.ge.
  destruct (Qle_bool (maxEntities (config engine)) (entities_size engine))
    eqn:E; simpl.
  - unfold Scene.ids. simpl. rewrite map_app. split; [done|].
    split; [done|].
    intros Hroom. apply Qle_bool_iff in E. lra.
  - unfold Scene.ids. simpl. rewrite map_app. simpl. rewrite id_set_engine.
    split; [done|]. split.
    + intros Hfull. apply Qle_bool_iff in Hfull. congruence.
    + intros _. unfold getEntity. simpl.
      by rewrite lookup_insert_eq.
Qed.

(** X25.  [Scene.removeEntity] removes every entry with the entity's id
    from the scene, keeps the others in their order, and removes the id
    from the engine's registry; ids that are not the entity's stay
    registered. *)
Theorem scene_removeEntity_removes_id (entity : GameObject)
    (this : Scene.Scene) (engine : RPGEngine) :
  let '(scene', engine', _) := Scene.removeEntity entity this engine in
  Scene.ids scene' = filter (λ i, i ≠ id (base entity)) (Scene.ids this) ∧
  (id (base entity) ∉ Scene.ids scene') ∧
  getEntity (id (base entity)) engine' = None ∧
  ∀ other, other ≠ id (base entity) →
           getEntity other engine' = getEntity other engine.
Proof.
  unfold Scene.removeEntity, removeEntity, getEntity, Scene.ids.
  assert (Hids : map (λ e, id (base e))
                   (filter (λ e, id (base e) ≠ id (base entity))
                      (Scene.entities this))
                 = filter (λ i, i ≠ id (base entity))
                     (map (λ e, id (base e)) (Scene.entities this))).
  { induction (Scene.entities this) as [|e l IH]; [done|].
    rewrite filter_cons. simpl. rewrite filter_cons.
    destruct (decide (id (base e) ≠ id (base entity))); simpl; by rewrite IH. }
  destruct (entities engine !! id (base entity)) as [o|] eqn:E; simpl.
  - rewrite Hids. split; [done|].
    split; [intros H; by apply list_elem_of_filter in H as [H _]|].
    split; [by rewrite lookup_delete_eq|].
    intros other Hne. by rewrite lookup_delete_ne.
  - rewrite Hids. split; [done|].
    split; [intros H; by apply list_elem_of_filter in H as [H _]|]. done.
Qed.

End SceneFacts.


(* ===================================================================== *)
(** * The further properties on concrete inputs                           *)
(* ===================================================================== *)

Lemma hit_is_own_name : EventBus.own_name "hit".
Proof.
  intros H. unfold EventBus.inherited_names in H.
  repeat (apply elem_of_cons in H as [H|H]; [discriminate H|]).
  by apply elem_of_nil in H.
Qed.

Lemma well_formed_four_listeners :
  EventBus.well_formed BusScenario.four_listeners.
Proof.
  unfold BusScenario.four_listeners, BusScenario.after.
  repeat apply well_formed_after_on. apply well_formed_new.
Qed.


Lemma off_removes_every_subscription_witness :
  ∃ s', EventBus.off "hit" (EventBus.Fn 1) BusScenario.four_listeners
        = (EventBus.Normal tt, s') ∧
        EventBus.subscribed "hit" s'
        = Some [EventBus.Fn 0; EventBus.Fn 2; EventBus.Fn 3] ∧
        (∀ e', e' ≠ "hit"%string →
               EventBus.subscribed e' s'
               = EventBus.subscribed e' BusScenario.four_listeners) ∧
        (EventBus.events BusScenario.four_listeners !! "hit"%string = None →
         s' = BusScenario.four_listeners) ∧
        (∀ called s'',
           EventBus.emit BusScenario.behaviour 1 "hit" tt s'
           = (EventBus.Normal called, s'') →
           EventBus.Fn 1 ∉ called).
Proof.
  apply (off_removes_every_subscription BusScenario.behaviour 1 "hit" tt
           (EventBus.Fn 1) BusScenario.four_listeners hit_is_own_name
           well_formed_four_listeners).
Defined.

Lemma unsubscribe_undoes_on_witness :
  ∃ h s1 s2,
    EventBus.on "hit" (EventBus.Fn 7) BusScenario.four_listeners
    = (EventBus.Normal h, s1) ∧
    EventBus.unsubscribe h s1 = (EventBus.Normal tt, s2) ∧
    EventBus.subscribed "hit" s2
    = Some [EventBus.Fn 0; EventBus.Fn 1; EventBus.Fn 2; EventBus.Fn 3] ∧
    (∀ e', e' ≠ "hit"%string →
           EventBus.subscribed e' s2
           = EventBus.subscribed e' BusScenario.four_listeners).
Proof.
  apply (unsubscribe_undoes_on "hit" (EventBus.Fn 7)
           BusScenario.four_listeners hit_is_own_name
           well_formed_four_listeners).
  vm_compute. intros H. repeat (apply elem_of_cons in H as [H|H]; [done|]).
  by apply elem_of_nil in H.
Defined.

Lemma on_during_delivery_takes_effect_later_witness :
  ∃ s', EventBus.emit MoreScenarios.subscribing_behaviour 1 "hit" tt
          MoreScenarios.one_listener
        = (EventBus.Normal [EventBus.Fn 0], s') ∧
        EventBus.subscribed "hit" s' = Some [EventBus.Fn 0; EventBus.Fn 5] ∧
        ∀ called s'',
          EventBus.emit MoreScenarios.subscribing_behaviour 1 "hit" tt s'
          = (EventBus.Normal called, s'') →
          called = [EventBus.Fn 0; EventBus.Fn 5].
Proof.
  apply (on_during_delivery_takes_effect_later
           MoreScenarios.subscribing_behaviour 0 "hit" tt 5 1
           MoreScenarios.one_listener [EventBus.Fn 0]); [reflexivity|].
  apply (EventBus.ls_cons MoreScenarios.subscribing_behaviour "hit" 5 tt
           0 1 0 []); repeat constructor.
Defined.

Lemma emit_logs_each_fault_witness :
  EventBus.emit BusScenario.behaviour 1 "hit" tt MoreScenarios.three_listeners
  = (EventBus.Normal [EventBus.Fn 0; EventBus.Fn 1; EventBus.Fn 3],
     EventBus.with_console [("hit"%string, "boom"%string)]
       MoreScenarios.three_listeners).
Proof.
  apply (emit_logs_each_fault BusScenario.behaviour 0 "hit" tt
           MoreScenarios.three_listeners
           [EventBus.Fn 0; EventBus.Fn 1; EventBus.Fn 3]); [reflexivity|].
  apply Forall_cons. split; [by left|].
  apply Forall_cons. split; [right; by exists "boom"%string|].
  apply Forall_cons. split; [by left|]. apply Forall_nil_2.
Defined.

Lemma once_listener_that_returns_fires_once_witness :
  ∃ s1 s2 s3,
    EventBus.once "hit" 0 (EventBus.new tt) = (EventBus.Normal tt, s1) ∧
    EventBus.emit BusScenario.behaviour 1 "hit" tt s1
    = (EventBus.Normal [EventBus.Wrapped 0 "hit" 0], s2) ∧
    EventBus.emit BusScenario.behaviour 1 "hit" tt s2
    = (EventBus.Normal [], s3).
Proof.
  apply (once_listener_that_returns_fires_once BusScenario.behaviour
           0 "hit" tt 0 (EventBus.new tt) hit_is_own_name); reflexivity.
Defined.

Lemma performAttack_certain_miss_witness :
  (RPG.hitChance GameScenario.hero MoreScenarios.knight <= 95 # 100)%Q ∧
  (RPG.hitChance GameScenario.hero MoreScenarios.knight < 0)%Q ∧
  RPG.performAttack GameScenario.hero MoreScenarios.knight
    (GameScenario.always (1 # 100))
  = ({| RPG.hit := false; RPG.damage := 0; RPG.critical := false |},
     MoreScenarios.knight, [],
     {| RPG.draws := RPG.draws (GameScenario.always (1 # 100));
        RPG.drawn := 1 |}).
Proof.
  apply (performAttack_certain_miss GameScenario.hero MoreScenarios.knight
           (GameScenario.always (1 # 100))); [reflexivity|discriminate].
Defined.

Lemma calculateDamage_floor_witness :
  (RPG.calculateDamage GameScenario.hero MoreScenarios.knight 1
     (GameScenario.always (1 # 2))).1 = 1%Q.
Proof.
  apply (calculateDamage_floor GameScenario.hero MoreScenarios.knight 1
           (GameScenario.always (1 # 2))); discriminate.
Defined.

Lemma addEntity_then_removeEntity_witness :
  let '(_, added, entity', _) :=
    RPG.addEntity (RPG.ACharacter GameScenario.hero) GameScenario.engine0 in
  let '(returned, removed, published) :=
    RPG.removeEntity "hero" added in
  RPG.getEntity "hero" added = Some entity' ∧
  (∀ other, other ≠ "hero"%string →
            RPG.getEntity other added
            = RPG.getEntity other GameScenario.engine0) ∧
  returned = true ∧
  RPG.entities removed = RPG.entities GameScenario.engine0 ∧
  published = [{| RPG.bus_of := 0; RPG.topic := "entity:removed";
                  RPG.payload := RPG.EntityPayload entity' |}] ∧
  RPG.engine (RPG.base entity') = Some 0.
Proof.
  apply (addEntity_then_removeEntity (RPG.ACharacter GameScenario.hero)
           GameScenario.engine0); reflexivity.
Defined.

Lemma registry_stays_within_capacity_witness :
  let after :=
    RPG.registry_calls
      [RPG.AddEntity (RPG.ACharacter GameScenario.hero);
       RPG.AddEntity (RPG.ACharacter GameScenario.rat);
       RPG.RemoveEntity "hero"]
      GameScenario.full_engine in
  RPG.config after = RPG.config GameScenario.full_engine ∧
  (RPG.entities_size after
   < RPG.maxEntities (RPG.config GameScenario.full_engine) + 1)%Q ∧
  ∀ n : Z,
    RPG.maxEntities (RPG.config GameScenario.full_engine) = inject_Z n →
    (RPG.entities_size after
     <= RPG.maxEntities (RPG.config GameScenario.full_engine))%Q.
Proof.
  apply (registry_stays_within_capacity
           [RPG.AddEntity (RPG.ACharacter GameScenario.hero);
            RPG.AddEntity (RPG.ACharacter GameScenario.rat);
            RPG.RemoveEntity "hero"]
           GameScenario.full_engine).
  vm_compute. reflexivity.
Defined.

Lemma inventory_stays_within_slots_witness :
  let after :=
    Inventory.inventory_calls
      [Inventory.AddItem MoreScenarios.potion 2;
       Inventory.AddItem MoreScenarios.potion 3;
       Inventory.RemoveItem "potion" 1]
      (Inventory.new_Inventory 1) in
  Inventory.maxSlots after = 1%Q ∧
  (inject_Z (Z.of_nat (Inventory.getSize after)) < 1 + 1)%Q ∧
  ∀ n : Z, 1%Q = inject_Z n →
           (inject_Z (Z.of_nat (Inventory.getSize after)) <= 1)%Q.
Proof.
  apply (inventory_stays_within_slots
           [Inventory.AddItem MoreScenarios.potion 2;
            Inventory.AddItem MoreScenarios.potion 3;
            Inventory.RemoveItem "potion" 1]
           (Inventory.new_Inventory 1)).
  reflexivity.
Defined.
